(** * Larynx text-to-speech runtime: a shallow embedding of
      [larynx_runtime/__init__.py] and of the phoneme-map closure of
      [larynx/__main__.py], with the properties of the pipeline that the
      specification states about them. *)

From Stdlib Require Import ZArith List Lia DecimalNat Sorted.
From Stdlib Require Import Floats.SpecFloat.
From stdpp Require Import base option list strings gmap.

Set Default Proof Using "Type".
Local Open Scope Z_scope.

(** ** Python values *)

(** A Python [str] is a sequence of Unicode code points; [phoneme[0]] and
    [phoneme[1:]] are the head and the tail of that sequence. *)
Definition codepoint := N.
Abbreviation str := (list codepoint).

(** The constants and the predicate of the [gruut_ipa] package that the
    runtime uses ([gruut_ipa.IPA]): the stress marks, the breaks and
    [IPA.is_stress]. The package is not part of the runtime: the
    definitions of the runtime below take [is_stress] and the major break
    as parameters, and these values instantiate them in the runs at the
    end. *)
Module gruut_ipa.
Definition STRESS_PRIMARY : codepoint := 0x02C8%N.
Definition STRESS_SECONDARY : codepoint := 0x02CC%N.
Definition BREAK_MINOR : str := [0x007C%N].
Definition BREAK_MAJOR : str := [0x2016%N].
Definition is_stress (c : codepoint) : bool :=
  (c =? STRESS_PRIMARY)%N || (c =? STRESS_SECONDARY)%N.
End gruut_ipa.

(** ** Picking the phonemes of one sentence (lines 69-94) *)

Section Phonemes.
(** [gruut_ipa.IPA.is_stress] and [gruut_ipa.IPA.BREAK_MAJOR.value]. *)
Context (is_stress : codepoint → bool) (BREAK_MAJOR : str).

(** Body of [for phoneme in word_prons[0]]: an empty phoneme is skipped,
    a leading stress mark is appended as a symbol of its own, and then
    the rest of the phoneme is appended. *)
Definition add_phoneme (first_pron : list str) (phoneme : str) : list str :=
  match phoneme with
  | [] => first_pron
  | c :: rest =>
      if is_stress c then (first_pron ++ [[c]]) ++ [rest]
      else first_pron ++ [phoneme]
  end.

(** Body of [for word_prons in sentence_prons]: only the first
    pronunciation of a word that has one is used. *)
Definition add_word (first_pron : list str) (word_prons : list (list str))
  : list str :=
  match word_prons with
  | [] => first_pron
  | pron0 :: _ => foldl add_phoneme first_pron pron0
  end.

Definition pick_first_pron (sentence_prons : list (list (list str)))
  : list str :=
  foldl add_word [] sentence_prons.

(** Lines 87-92, for a non-empty [first_pron]: ensure a trailing major
    break, then append another one. *)
Definition end_sentence (first_pron : list str) : list str :=
  let first_pron :=
    if decide (last first_pron = Some BREAK_MAJOR) then first_pron
    else first_pron ++ [BREAK_MAJOR] in
  first_pron ++ [BREAK_MAJOR].

(** What one sentence adds to [text_phonemes]: nothing when it has no
    phoneme ([continue]), the closed pronunciation otherwise. *)
Definition sentence_phonemes (sentence_prons : list (list (list str)))
  : list str :=
  match pick_first_pron sentence_prons with
  | [] => []
  | first_pron => end_sentence first_pron
  end.
End Phonemes.

(** ** The phoneme vocabulary (lines 42-48) and the encoder (line 100) *)

(** [{p: i for i, p in enumerate(phonemes_list)}]: the items are inserted
    from left to right, so a symbol listed twice keeps its last position. *)
Definition enumerate {A : Type} (l : list A) : list (nat * A) := imap pair l.

Definition dict_of_enumerate (phonemes_list : list str) : gmap str nat :=
  foldl (λ d ip, <[ip.2 := ip.1]> d) ∅ (enumerate phonemes_list).

(** Exceptions the runtime itself can raise. *)
Inductive exn : Type :=
  | KeyError (key : str)
  | ZeroDivisionError
  | OverflowError.

Definition py (A : Type) : Type := (exn + A)%type.

#[export] Instance py_ret : MRet py := λ A x, inr x.
#[export] Instance py_bind : MBind py := λ A B f m,
  match m with
  | inl e => inl e
  | inr x => f x
  end.

(** [phoneme_to_id[p]]: a subscript, not [dict.get]. *)
Definition getitem (phoneme_to_id : gmap str nat) (p : str) : py nat :=
  match phoneme_to_id !! p with
  | Some i => inr i
  | None => inl (KeyError p)
  end.

(** [[phoneme_to_id[p] for p in text_phonemes]], evaluated left to right. *)
Fixpoint encode_phonemes (phoneme_to_id : gmap str nat)
    (text_phonemes : list str) : py (list nat) :=
  match text_phonemes with
  | [] => mret []
  | p :: ps =>
      i ← getitem phoneme_to_id p;
      ids ← encode_phonemes phoneme_to_id ps;
      mret (i :: ids)
  end.

(** Reading ids back through the inventory list: [phonemes_list[i]]. *)
Definition decode_ids (phonemes_list : list str) (ids : list nat)
  : option (list str) :=
  mapM (λ i, phonemes_list !! i) ids.

(** ** Python numbers used by the timing code (lines 123-125) *)

(** A Python [float] is an IEEE 754 binary64 number. *)
Abbreviation float := spec_float.
Definition prec : Z := 53.
Definition emax : Z := 1024.

(** An [int] as an exact, unrounded dyadic number. *)
Definition float_of_int (a : Z) : float :=
  match a with
  | Z0 => S754_zero false
  | Zpos p => S754_finite false p 0
  | Zneg p => S754_finite true p 0
  end.

(** [a / b] on two [int]s: the correctly rounded quotient;
    [ZeroDivisionError] when [b] is 0 and [OverflowError] when the quotient
    is too large for a float. *)
Definition int_truediv (a b : Z) : py float :=
  if decide (b = 0) then inl ZeroDivisionError
  else
    match SFdiv prec emax (float_of_int a) (float_of_int b) with
    | S754_infinity _ => inl OverflowError
    | q => inr q
    end.

(** [x - y] on two [float]s. *)
Definition float_sub (x y : float) : float := SFsub prec emax x y.

(** [x / y] on two [float]s: [ZeroDivisionError] when [y] is a zero. *)
Definition float_truediv (x y : float) : py float :=
  match y with
  | S754_zero _ => inl ZeroDivisionError
  | _ => inr (SFdiv prec emax x y)
  end.

(** [0 < x] on a [float]. *)
Definition float_pos (x : float) : bool := SFltb (S754_zero false) x.

(** [math.isfinite]. *)
Definition float_finite (x : float) : bool :=
  match x with
  | S754_zero _ | S754_finite _ _ _ => true
  | _ => false
  end.

(** The binary order of magnitude of a finite non-zero float [m * 2^e]:
    the [k] with [2^(k-1) <= m * 2^e < 2^k]. *)
Definition float_mag (x : float) : Z :=
  match x with
  | S754_finite _ m e => Zdigits2 (Zpos m) + e
  | _ => 0
  end.

(** Lines 123-125. *)
Definition real_time_factor (audio_len sample_rate : Z) (infer_sec : float)
  : py (float * float) :=
  audio_duration_sec ← int_truediv audio_len sample_rate;
  real_time_factor ← float_truediv audio_duration_sec infer_sec;
  mret (audio_duration_sec, real_time_factor).

(** ** The orchestrator [text_to_speech] (lines 28-134) *)

Section Runtime.
(** Token objects of the tokenizer and mel spectrograms are opaque to the
    runtime. *)
Context {Token Mels : Type}.
(** [gruut_ipa.IPA.is_stress] and [gruut_ipa.IPA.BREAK_MAJOR.value]. *)
Context (is_stress : codepoint → bool) (BREAK_MAJOR : str).
(** The successive readings of [time.perf_counter()]. *)
Context (clock : nat → float).

Record Sentence := {
  clean_words : list str;
  tokens : list Token
}.

(** A [gruut.Language] object: its identity, and what its methods return.
    The attribute [phoneme_to_id] that the runtime attaches to the object
    lives in the store of the [world] below. The tokenizer, the phonemizer
    and the two stages are taken to return: a run in which one of them
    raises ends there, and is not a run of this model. *)
Record Language := {
  lang_id : nat;
  id_to_phonemes : list str;
  (** [tokenizer.tokenize(text, number_converters=, replace_currency=)] *)
  tokenize : str → bool → bool → list Sentence;
  (** [phonemizer.phonemize(tokens, word_indexes=, word_breaks=True)]:
      for each word, its pronunciations, each a list of phonemes. *)
  phonemize : list Token → bool → list (list (list str))
}.

Record TextToSpeechModel := { phonemes_to_mels : list nat → Mels }.

(** A waveform is a one-dimensional array of samples; [audio.shape[-1]]
    is its length. *)
Record VocoderModel := { mels_to_audio : Mels → list Z }.

(** The [_LOGGER.debug] records, in the order of the source. *)
Inductive log_record : Type :=
  | Log_phoneme_to_id (phoneme_to_id : gmap str nat)
  | Log_words (text : str) (words : list str)
  | Log_phonemes (text : str) (text_phonemes : list str)
  | Log_mels (seconds : float) (mels : Mels)
  | Log_audio (seconds : float) (audio : list Z)
  | Log_real_time_factor (real_time_factor audio_sec infer_sec : float).

(** What a run does that can be observed from outside: the calls into the
    collaborators and the debug log. *)
Inductive event : Type :=
  | Call_id_to_phonemes (lang : nat)
  | Call_tokenize (text : str)
  | Call_phonemize (sentence_tokens : list Token)
  | Call_phonemes_to_mels (phoneme_ids : list nat)
  | Call_mels_to_audio (mels : Mels)
  | Debug (r : log_record).

(** The mutable state a run works on: the [phoneme_to_id] attribute of
    each language object (absent when the object has none), the number of
    clock readings taken, and the events so far, oldest first. *)
Record world := World {
  attrs : gmap nat (gmap str nat);
  ticks : nat;
  trace : list event
}.

(** State and exceptions: an exception keeps the state reached. *)
Definition M (A : Type) : Type := world → py A * world.

#[export] Instance M_ret : MRet M := λ A x w, (inr x, w).
#[export] Instance M_bind : MBind M := λ A B f m w,
  match m w with
  | (inl e, w') => (inl e, w')
  | (inr x, w') => f x w'
  end.

Definition lift {A : Type} (r : py A) : M A := λ w, (r, w).

Definition emit (e : event) : M unit :=
  λ w, (inr (), World (attrs w) (ticks w) (trace w ++ [e])).

Definition debug (r : log_record) : M unit := emit (Debug r).

(** [getattr(gruut_lang, "phoneme_to_id", None)] *)
Definition getattr_phoneme_to_id (gruut_lang : Language)
  : M (option (gmap str nat)) :=
  λ w, (inr (attrs w !! lang_id gruut_lang), w).

(** [setattr(gruut_lang, "phoneme_to_id", phoneme_to_id)] *)
Definition setattr_phoneme_to_id (gruut_lang : Language)
    (phoneme_to_id : gmap str nat) : M unit :=
  λ w, (inr (),
        World (<[lang_id gruut_lang := phoneme_to_id]> (attrs w))
              (ticks w) (trace w)).

(** [time.perf_counter()] *)
Definition perf_counter : M float :=
  λ w, (inr (clock (ticks w)), World (attrs w) (S (ticks w)) (trace w)).

(** Lines 42-48: the vocabulary of the language, built on first use and
    kept on the language object. *)
Definition get_phoneme_to_id (gruut_lang : Language) : M (gmap str nat) :=
  cached ← getattr_phoneme_to_id gruut_lang;
  match cached with
  | Some phoneme_to_id => mret phoneme_to_id
  | None =>
      emit (Call_id_to_phonemes (lang_id gruut_lang));;
      let phonemes_list := id_to_phonemes gruut_lang in
      let phoneme_to_id := dict_of_enumerate phonemes_list in
      debug (Log_phoneme_to_id phoneme_to_id);;
      setattr_phoneme_to_id gruut_lang phoneme_to_id;;
      mret phoneme_to_id
  end.

(** Body of [for sentence in sentences] (lines 61-94) on the pair
    [(clean_words, text_phonemes)]. *)
Definition sentence_body (gruut_lang : Language) (word_indexes : bool)
    (acc : list str * list str) (sentence : Sentence)
  : M (list str * list str) :=
  let words := acc.1 ++ clean_words sentence in
  emit (Call_phonemize (tokens sentence));;
  let sentence_prons := phonemize gruut_lang (tokens sentence) word_indexes in
  mret (words,
        acc.2 ++ sentence_phonemes is_stress BREAK_MAJOR sentence_prons).

(** A [for] loop that threads an accumulator through the monad. *)
Fixpoint for_each {A B : Type} (body : A → B → M A) (acc : A) (l : list B)
  : M A :=
  match l with
  | [] => mret acc
  | x :: l => acc' ← body acc x; for_each body acc' l
  end.

Definition text_to_speech (text : str) (gruut_lang : Language)
    (tts_model : TextToSpeechModel) (vocoder_model : VocoderModel)
    (sample_rate : Z) (number_converters disable_currency word_indexes : bool)
  : M (list Z) :=
  phoneme_to_id ← get_phoneme_to_id gruut_lang;
  emit (Call_tokenize text);;
  let sentences :=
    tokenize gruut_lang text number_converters (negb disable_currency) in
  acc ← for_each (sentence_body gruut_lang word_indexes) ([], []) sentences;
  let '(words, text_phonemes) := acc in
  debug (Log_words text words);;
  debug (Log_phonemes text text_phonemes);;
  (* Convert to phoneme ids *)
  phoneme_ids ← lift (encode_phonemes phoneme_to_id text_phonemes);
  (* Run text to speech *)
  tts_start_time ← perf_counter;
  emit (Call_phonemes_to_mels phoneme_ids);;
  let mels := phonemes_to_mels tts_model phoneme_ids in
  tts_end_time ← perf_counter;
  debug (Log_mels (float_sub tts_end_time tts_start_time) mels);;
  (* Run vocoder *)
  vocoder_start_time ← perf_counter;
  emit (Call_mels_to_audio mels);;
  let audio := mels_to_audio vocoder_model mels in
  vocoder_end_time ← perf_counter;
  debug (Log_audio (float_sub vocoder_end_time vocoder_start_time) audio);;
  let infer_sec := float_sub vocoder_end_time tts_start_time in
  rtf ← lift (real_time_factor (Z.of_nat (length audio)) sample_rate
                infer_sec);
  debug (Log_real_time_factor rtf.2 rtf.1 infer_sec);;
  mret audio.

(** The value of the [sample_rate] keyword when the caller gives none. *)
Definition default_sample_rate : Z := 22050.

(** *** What a run does, in closed form

    The loops of [text_to_speech] and the events of a run, written as
    functions of the inputs; the properties below relate them to the
    definitions above. *)

Implicit Types (gruut_lang : Language) (w : world) (sentences : list Sentence).

(** The loop over the sentences in closed form: the words and the
    phonemes it accumulates. *)
Definition utterance_words sentences : list str :=
  concat (clean_words <$> sentences).

Definition first_pron_of gruut_lang (word_indexes : bool)
    (sentence : Sentence) : list str :=
  pick_first_pron is_stress
    (phonemize gruut_lang (tokens sentence) word_indexes).

Definition utterance_phonemes gruut_lang (word_indexes : bool) sentences
  : list str :=
  concat ((λ sentence,
             sentence_phonemes is_stress BREAK_MAJOR
               (phonemize gruut_lang (tokens sentence) word_indexes))
          <$> sentences).

Definition phonemize_calls sentences : list event :=
  (λ sentence, Call_phonemize (tokens sentence)) <$> sentences.

(** The closed pronunciations of the sentences that have phonemes. *)
Definition kept_chunks gruut_lang (word_indexes : bool) sentences
  : list (list str) :=
  end_sentence BREAK_MAJOR
  <$> filter (λ first_pron, first_pron ≠ [])
        (first_pron_of gruut_lang word_indexes <$> sentences).

(** The vocabulary a run works with, and the state after lines 42-48. *)
Definition vocabulary gruut_lang w : gmap str nat :=
  match attrs w !! lang_id gruut_lang with
  | Some phoneme_to_id => phoneme_to_id
  | None => dict_of_enumerate (id_to_phonemes gruut_lang)
  end.

Definition vocabulary_events gruut_lang w : list event :=
  match attrs w !! lang_id gruut_lang with
  | Some _ => []
  | None =>
      [Call_id_to_phonemes (lang_id gruut_lang);
       Debug (Log_phoneme_to_id
                (dict_of_enumerate (id_to_phonemes gruut_lang)))]
  end.

Section Run.
Context (text : str) (gruut_lang : Language).
Context (tts_model : TextToSpeechModel).
Context (vocoder_model : VocoderModel).
Context (sample_rate : Z).
Context (number_converters disable_currency word_indexes : bool).
Context (w : world).

Definition run_sentences : list Sentence :=
  tokenize gruut_lang text number_converters (negb disable_currency).

Definition run_text_phonemes : list str :=
  utterance_phonemes gruut_lang word_indexes run_sentences.

Definition run_attrs : gmap nat (gmap str nat) :=
  <[lang_id gruut_lang := vocabulary gruut_lang w]> (attrs w).

(** The events up to the encoding step. *)
Definition events_before_encoding : list event :=
  vocabulary_events gruut_lang w
  ++ [Call_tokenize text]
  ++ phonemize_calls run_sentences
  ++ [Debug (Log_words text (utterance_words run_sentences));
      Debug (Log_phonemes text run_text_phonemes)].

Definition tts_start_time : float := clock (ticks w).
Definition tts_end_time : float := clock (1 + ticks w)%nat.
Definition vocoder_start_time : float := clock (2 + ticks w)%nat.
Definition vocoder_end_time : float := clock (3 + ticks w)%nat.

(** The measured inference wall time. *)
Definition run_infer_sec : float :=
  float_sub vocoder_end_time tts_start_time.

Definition run_audio (phoneme_ids : list nat) : list Z :=
  mels_to_audio vocoder_model (phonemes_to_mels tts_model phoneme_ids).

(** The events of the two inference stages. *)
Definition events_of_inference (phoneme_ids : list nat) : list event :=
  let mels := phonemes_to_mels tts_model phoneme_ids in
  [Call_phonemes_to_mels phoneme_ids;
   Debug (Log_mels (float_sub tts_end_time tts_start_time) mels);
   Call_mels_to_audio mels;
   Debug (Log_audio (float_sub vocoder_end_time vocoder_start_time)
            (run_audio phoneme_ids))].
End Run.

Definition is_vocabulary_build (e : event) : bool :=
  match e with
  | Call_id_to_phonemes _ => true
  | _ => false
  end.

(** How many times the inventory was asked for in a trace. *)
Definition builds (events : list event) : nat :=
  length (List.filter is_vocabulary_build events).


Definition is_phonemize_call (e : event) : bool :=
  match e with
  | Call_phonemize _ => true
  | _ => false
  end.

Definition is_vocoder_call (e : event) : bool :=
  match e with
  | Call_mels_to_audio _ => true
  | _ => false
  end.

(** How many waveforms were made in a trace. *)
Definition audios_made (events : list event) : nat :=
  length (List.filter is_vocoder_call events).

(** Whether some sentence is phonemized after a waveform has been made. *)
Fixpoint phonemizes_after_audio (events : list event) : bool :=
  match events with
  | [] => false
  | e :: events =>
      (is_vocoder_call e && existsb is_phonemize_call events)
      || phonemizes_after_audio events
  end.

(** Audio is emitted sentence by sentence when a run makes one waveform
    per sentence and, from the second sentence on, phonemizes a sentence
    only after the waveform of an earlier one was made. *)
Definition emitted_per_sentence (n_sentences : nat) (events : list event)
  : Prop :=
  audios_made events = n_sentences
  ∧ (2 ≤ n_sentences → phonemizes_after_audio events = true)%nat.
End Runtime.

(** ** The model loaders (lines 140-191) *)

Section Loaders.
(** The enumerations [TextToSpeechType] and [VocoderType] and the stage
    classes are declared in modules other than the runtime's: the tags
    the loaders compare with and the constructors they call are taken as
    given. Python's [==] on enumeration members is equality of tags. *)
Context {TextToSpeechType VocoderType : Type}.
Context `{!EqDecision TextToSpeechType, !EqDecision VocoderType}.
Context (TACOTRON2 : TextToSpeechType) (GRIFFIN_LIM HIFI_GAN : VocoderType).
Context {Path TextToSpeechModel VocoderModel : Type}.

(** [onnxruntime.SessionOptions]: only the optimisation level is set. *)
Inductive GraphOptimizationLevel : Type :=
  | ORT_DEFAULT
  | ORT_DISABLE_ALL.

Record SessionOptions := {
  graph_optimization_level : GraphOptimizationLevel
}.

Record TextToSpeechModelConfig := {
  tts_model_path : Path;
  tts_session_options : SessionOptions
}.

Record VocoderModelConfig := {
  vocoder_model_path : Path;
  vocoder_session_options : SessionOptions
}.

Context (Tacotron2TextToSpeech : TextToSpeechModelConfig → TextToSpeechModel).
Context (GriffinLimVocoder HiFiGanVocoder
           : VocoderModelConfig → VocoderModel).

(** The two [ValueError]s, with the tag their message quotes. *)
Inductive ValueError : Type :=
  | Unknown_text_to_speech_model_type (model_type : TextToSpeechType)
  | Unknown_vocoder_model_type (model_type : VocoderType).

Definition make_session_options (no_optimizations : bool) : SessionOptions :=
  if no_optimizations
  then {| graph_optimization_level := ORT_DISABLE_ALL |}
  else {| graph_optimization_level := ORT_DEFAULT |}.

Definition load_tts_model (model_type : TextToSpeechType) (model_path : Path)
    (no_optimizations : bool) : ValueError + TextToSpeechModel :=
  let sess_options := make_session_options no_optimizations in
  let config := {| tts_model_path := model_path;
                   tts_session_options := sess_options |} in
  if decide (model_type = TACOTRON2) then inr (Tacotron2TextToSpeech config)
  else inl (Unknown_text_to_speech_model_type model_type).

Definition load_vocoder_model (model_type : VocoderType) (model_path : Path)
    (no_optimizations : bool) : ValueError + VocoderModel :=
  let sess_options := make_session_options no_optimizations in
  let config := {| vocoder_model_path := model_path;
                   vocoder_session_options := sess_options |} in
  if decide (model_type = GRIFFIN_LIM) then inr (GriffinLimVocoder config)
  else if decide (model_type = HIFI_GAN) then inr (HiFiGanVocoder config)
  else inl (Unknown_vocoder_model_type model_type).
End Loaders.

(** ** The phoneme map of the command line ([larynx/__main__.py], 122-125) *)

(** A value of the phoneme map: a phoneme, or a list of phonemes. *)
Inductive mapped : Type :=
  | Mapped_str (p : str)
  | Mapped_list (ps : list str).

(** [phoneme_map.get(p, default)] *)
Definition dict_get (phoneme_map : gmap str mapped) (p : str) (default : mapped)
  : mapped :=
  match phoneme_map !! p with
  | Some v => v
  | None => default
  end.

(** The closure [phoneme_map_transform]: its body is the expression
    statement [phoneme_map.get(p, p)], whose value is dropped; a function
    that ends without [return] gives Python's [None], written [None]
    here ([Some v] is a returned value [v]). *)
Definition phoneme_map_transform (phoneme_map : gmap str mapped) (p : str)
  : option mapped :=
  let _ := dict_get phoneme_map p (Mapped_str p) in
  None.

(** The same closure with the value of its expression returned. *)
Definition phoneme_map_transform_returning (phoneme_map : gmap str mapped)
    (p : str) : option mapped :=
  Some (dict_get phoneme_map p (Mapped_str p)).

(** ** A small language and two small stages, to run the definitions on *)

Module Demo.
Import gruut_ipa.

Definition ascii_str (s : string) : str :=
  map Ascii.N_of_ascii (String.list_ascii_of_string s).

(** Cuts [s] at every occurrence of [sep], dropping empty pieces. *)
Fixpoint split_on (sep : codepoint) (piece : str) (s : str) : list str :=
  match s with
  | [] => match piece with [] => [] | _ => [piece] end
  | c :: s =>
      if (c =? sep)%N
      then match piece with
           | [] => split_on sep [] s
           | _ => piece :: split_on sep [] s
           end
      else split_on sep (piece ++ [c]) s
  end.

(** Sentences end at a full stop; words are separated by spaces; a token
    is the word itself. *)
Definition demo_tokenize (text : str)
    (number_converters replace_currency : bool) : list (@Sentence str) :=
  map (λ sentence_text,
         let words := split_on 0x20%N [] sentence_text in
         {| clean_words := words; tokens := words |})
      (split_on 0x2E%N [] text).

(** A three-word lexicon; other words have no pronunciation. The word
    written as an apostrophe is pronounced as one phoneme, the primary
    stress mark on its own. *)
Definition demo_lexicon (word : str) : list (list str) :=
  if decide (word = ascii_str "hello") then
    [[ascii_str "h"; [0x0259%N]; STRESS_PRIMARY :: ascii_str "l";
      [0x6F%N; 0x028A%N]]]
  else if decide (word = ascii_str "world") then
    [[STRESS_PRIMARY :: ascii_str "w"; [0x025C%N]; ascii_str "l";
      ascii_str "d"; BREAK_MAJOR]]
  else if decide (word = ascii_str "'") then [[[STRESS_PRIMARY]]]
  else [].

Definition demo_phonemize (sentence_tokens : list str) (word_indexes : bool)
  : list (list (list str)) :=
  map demo_lexicon sentence_tokens.

Definition demo_phonemes : list str :=
  [BREAK_MINOR; BREAK_MAJOR; [STRESS_PRIMARY]; [STRESS_SECONDARY];
   ascii_str "h"; [0x0259%N]; ascii_str "l"; [0x6F%N; 0x028A%N];
   ascii_str "w"; [0x025C%N]; ascii_str "d"].

Definition demo_lang : @Language str :=
  {| lang_id := 0;
     id_to_phonemes := demo_phonemes;
     tokenize := demo_tokenize;
     phonemize := demo_phonemize |}.

(** One mel frame per phoneme id, and four samples per frame. *)
Definition demo_tts : @TextToSpeechModel (list nat) :=
  {| phonemes_to_mels := λ ids, ids |}.

Definition demo_vocoder : @VocoderModel (list nat) :=
  {| mels_to_audio := λ mels,
       mbind (λ frame, replicate 4 (Z.of_nat frame)) mels |}.

(** A clock that advances by a quarter of a second per reading:
    [clock n] is [(n + 1) / 4]. *)
Definition demo_clock (n : nat) : float :=
  SFdiv prec emax (float_of_int (Z.of_nat (S n))) (float_of_int 4).

Definition empty_world : @world str (list nat) := World ∅ 0 [].

Definition demo_run (text : str) (sample_rate : Z)
  : py (list Z) * @world str (list nat) :=
  text_to_speech is_stress BREAK_MAJOR demo_clock text demo_lang demo_tts
    demo_vocoder sample_rate false false false empty_world.

Definition hello_world : str := ascii_str "hello. world.".

(** A sentence made of a word the lexicon does not know. *)
Definition unknown_sentence : @Sentence str :=
  {| clean_words := [ascii_str "xyz"]; tokens := [ascii_str "xyz"] |}.

Definition demo_phoneme_map : gmap str mapped :=
  {[ ascii_str "a" := Mapped_str (ascii_str "b") ]}.

(** Tags and stages for the loaders. *)
Definition TACOTRON2 : string := "tacotron2".
Definition GRIFFIN_LIM : string := "griffin_lim".
Definition HIFI_GAN : string := "hifi_gan".

Inductive demo_stage : Type :=
  | Tacotron2_stage (config : @TextToSpeechModelConfig string)
  | GriffinLim_stage (config : @VocoderModelConfig string)
  | HiFiGan_stage (config : @VocoderModelConfig string).

(** The ids of the phonemes of [hello. world.]. *)
Definition hello_world_ids : list nat :=
  [4; 5; 2; 6; 7; 1; 1; 2; 8; 9; 6; 10; 1; 1]%nat.
End Demo.

(** ** The command line ([larynx/__main__.py]) *)

Module Main.

(** [class OutputNaming(str, Enum)] (lines 37-42). A member is equal to
    its value, so the string that [--output-naming] stores, one of the
    three values, is compared with the members as such. *)
Inductive OutputNaming : Type :=
  | TEXT
  | TIME
  | ID.

(** *** The string methods the loop uses *)

(** The code points for which [str.isspace] holds. *)
Definition whitespace : list codepoint :=
  [0x09; 0x0A; 0x0B; 0x0C; 0x0D; 0x1C; 0x1D; 0x1E; 0x1F; 0x20; 0x85; 0xA0;
   0x1680; 0x2000; 0x2001; 0x2002; 0x2003; 0x2004; 0x2005; 0x2006; 0x2007;
   0x2008; 0x2009; 0x200A; 0x2028; 0x2029; 0x202F; 0x205F; 0x3000]%N.

Definition isspace (c : codepoint) : bool := bool_decide (c ∈ whitespace).

Fixpoint lstrip (s : str) : str :=
  match s with
  | [] => []
  | c :: rest => if isspace c then lstrip rest else s
  end.

(** [s.strip()] *)
Definition strip (s : str) : str := reverse (lstrip (reverse (lstrip s))).

(** [s.startswith(prefix)] *)
Fixpoint startswith (s prefix : str) : bool :=
  match prefix, s with
  | [], _ => true
  | _ :: _, [] => false
  | c :: prefix, d :: s => bool_decide (c = d) && startswith s prefix
  end.

(** What is before and what is after the leftmost occurrence of [sep],
    when there is one. *)
Fixpoint partition_first (sep s : str) : option (str * str) :=
  if startswith s sep then Some ([], drop (length sep) s)
  else
    match s with
    | [] => None
    | c :: rest =>
        match partition_first sep rest with
        | Some (before, after) => Some (c :: before, after)
        | None => None
        end
    end.

(** What the loop itself can raise. *)
Inductive exn : Type :=
  (** [split] with an empty separator *)
  | ValueError_empty_separator
  (** unpacking a list of one element into two names *)
  | ValueError_not_enough_values
  (** [assert file_name, f"No file name for text: {text}"] *)
  | AssertionError (text : str).

(** [line_id, line = line.split(id_delimiter, maxsplit=1)] (line 220) *)
Definition split_id (id_delimiter line : str) : exn + (str * str) :=
  match id_delimiter with
  | [] => inl ValueError_empty_separator
  | _ =>
      match partition_first id_delimiter line with
      | Some line_id_and_text => inr line_id_and_text
      | None => inl ValueError_not_enough_values
      end
  end.

(** [string.punctuation], by code points. *)
Definition punctuation : str :=
  [33; 34; 35; 36; 37; 38; 39; 40; 41; 42; 43; 44; 45; 46; 47;
   58; 59; 60; 61; 62; 63; 64; 91; 92; 93; 94; 95; 96;
   123; 124; 125; 126]%N.

Definition space : codepoint := 0x20%N.
Definition underscore : codepoint := 0x5F%N.

(** [s.replace(old, new)] for strings [old] and [new] of one character. *)
Definition replace_char (old new : codepoint) (s : str) : str :=
  (λ c, if bool_decide (c = old) then new else c) <$> s.

(** [s.replace(old, "")] for a string [old] of one character. *)
Definition remove_char (old : codepoint) (s : str) : str :=
  filter (λ c, c ≠ old) s.

(** [s.translate(str.maketrans("", "", deleted))] *)
Definition delete_chars (deleted s : str) : str :=
  filter (λ c, c ∉ deleted) s.

(** Lines 280-283: the file name made from the text of a sentence. *)
Definition text_file_name (text : str) : str :=
  let file_name := replace_char space underscore text in
  delete_chars (remove_char underscore punctuation) file_name.

(** The decimal digits of [str(n)] and of [f"{n}"]. *)
Fixpoint digits (d : Decimal.uint) : str :=
  match d with
  | Decimal.Nil => []
  | Decimal.D0 d => 48%N :: digits d
  | Decimal.D1 d => 49%N :: digits d
  | Decimal.D2 d => 50%N :: digits d
  | Decimal.D3 d => 51%N :: digits d
  | Decimal.D4 d => 52%N :: digits d
  | Decimal.D5 d => 53%N :: digits d
  | Decimal.D6 d => 54%N :: digits d
  | Decimal.D7 d => 55%N :: digits d
  | Decimal.D8 d => 56%N :: digits d
  | Decimal.D9 d => 57%N :: digits d
  end.

Definition str_of_nat (n : nat) : str := digits (Nat.to_uint n).

(** The extension [".wav"]. *)
Definition dot_wav : str := [0x2E; 0x77; 0x61; 0x76]%N.

(** *** The loop over the lines (lines 203-315)

    [larynx.text_to_speech] is not the function of [larynx_runtime]
    above: it yields one pair of a text and its audio per sentence. It,
    the player and the file system are taken to work: a run in which one
    of them raises ends there, and is not a run of this model. The
    [_LOGGER.debug] records, and the clock readings that only feed them,
    are left out. Assertions are taken to be enabled. *)

Section Loop.
(** A [pathlib.Path]. *)
Context {Path : Type}.
(** The pairs that [text_to_speech(text=line, ...)] yields. *)
Context (larynx_text_to_speech : str → list (str * list Z)).
(** [str(time.time())] at the successive readings of the clock. *)
Context (time_str : nat → str).
(** [shlex.split(args.play_command)] *)
Context (play_command : list str).

(** The arguments the loop reads. [output_dir] is [None] when
    [args.output_dir] is false. *)
Record Args := {
  csv : bool;
  stream_raw : bool;
  interactive : bool;
  output_dir : option Path;
  output_naming : OutputNaming;
  id_delimiter : str;
  sample_rate : Z
}.

(** What leaves the program. [wav_write(f, rate, audio)] writes a WAV
    file made of the rate and of the samples. *)
Inductive output : Type :=
  (** [sys.stdout.buffer.write(audio.tobytes())] *)
  | Stdout_raw (audio : list Z)
  (** [subprocess.run(play_command, input=wav_data, ...)] *)
  | Play_wav (command : list str) (rate : Z) (audio : list Z)
  (** [open(output_dir / file_name, "wb")] and [wav_write] into it *)
  | Write_wav_file (dir : Path) (file_name : str) (rate : Z) (audio : list Z)
  (** [sys.stdout.buffer.write(wav_data)] *)
  | Stdout_wav (rate : Z) (audio : list Z).

(** The state of the loop: the list [all_audios], the number of
    [time.time()] readings taken, and what has left the program, oldest
    first. *)
Record state := State {
  all_audios : list (list Z);
  time_reads : nat;
  outputs : list output
}.

Definition Run (A : Type) : Type := state → (exn + A) * state.

#[export] Instance Run_ret : MRet Run := λ A x s, (inr x, s).
#[export] Instance Run_bind : MBind Run := λ A B f m s,
  match m s with
  | (inl e, s') => (inl e, s')
  | (inr x, s') => f x s'
  end.

Definition raise {A : Type} (e : exn) : Run A := λ s, (inl e, s).

Definition lift {A : Type} (r : exn + A) : Run A := λ s, (r, s).

Definition put (o : output) : Run unit :=
  λ s, (inr (), State (all_audios s) (time_reads s) (outputs s ++ [o])).

(** [all_audios.append(audio)] *)
Definition all_audios_append (audio : list Z) : Run unit :=
  λ s, (inr (), State (all_audios s ++ [audio]) (time_reads s) (outputs s)).

(** [str(time.time())] *)
Definition time_time : Run str :=
  λ s, (inr (time_str (time_reads s)),
        State (all_audios s) (S (time_reads s)) (outputs s)).

Definition when (b : bool) (m : Run unit) : Run unit :=
  if b then m else mret ().

(** Lines 278-293: the new value of [text_id], and [file_name]. *)
Definition name_file (args : Args) (line_id text_id : str) (text_idx : nat)
    (text : str) : Run (str * str) :=
  match output_naming args with
  | TEXT => mret (text_id, text_file_name text)
  | TIME => file_name ← time_time; mret (text_id, file_name)
  | ID =>
      let text_id :=
        match text_id with
        | [] => line_id
        | _ => line_id ++ [underscore] ++ str_of_nat (text_idx + 1)
        end in
      mret (text_id, text_id)
  end.

(** Body of [for text_idx, (text, audio) in enumerate(text_and_audios)]
    (lines 241-303), on the variable [text_id]. *)
Definition audio_body (args : Args) (line_id : str) (text_id : str)
    (item : nat * (str * list Z)) : Run str :=
  let '(text_idx, (text, audio)) := item in
  if stream_raw args then
    put (Stdout_raw audio);;
    mret text_id
  else if interactive args || bool_decide (is_Some (output_dir args)) then
    when (interactive args)
      (put (Play_wav play_command (sample_rate args) audio));;
    match output_dir args with
    | Some dir =>
        '(text_id, file_name) ← name_file args line_id text_id text_idx text;
        match file_name with
        | [] => raise (AssertionError text)
        | _ =>
            put (Write_wav_file dir (file_name ++ dot_wav) (sample_rate args)
                   audio);;
            mret text_id
        end
    | None => mret text_id
    end
  else
    all_audios_append audio;;
    mret text_id.

(** A [for] loop that threads a variable through the monad. *)
Fixpoint for_each {A B : Type} (body : A → B → Run A) (acc : A) (l : list B)
  : Run A :=
  match l with
  | [] => mret acc
  | x :: l => acc' ← body acc x; for_each body acc' l
  end.

(** Body of [for line in texts] (lines 213-303). *)
Definition line_body (args : Args) (_ : unit) (line : str) : Run unit :=
  let line_id := [] in
  let line := strip line in
  match line with
  | [] => mret ()
  | _ =>
      '(line_id, line) ←
        match output_naming args with
        | ID => lift (split_id (id_delimiter args) line)
        | _ => mret (line_id, line)
        end;
      let text_and_audios := larynx_text_to_speech line in
      let text_id := [] in
      for_each (audio_body args line_id) text_id (enumerate text_and_audios);;
      mret ()
  end.

(** Lines 84-85: [--csv] sets the naming to ["id"]. *)
Definition apply_csv (args : Args) : Args :=
  if csv args then
    {| csv := csv args; stream_raw := stream_raw args;
       interactive := interactive args; output_dir := output_dir args;
       output_naming := ID; id_delimiter := id_delimiter args;
       sample_rate := sample_rate args |}
  else args.

(** Lines 203-206: with a terminal on standard output and nowhere else
    for the audio to go, the run is interactive. *)
Definition apply_isatty (stdout_isatty : bool) (args : Args) : Args :=
  if stdout_isatty
     && negb (bool_decide (is_Some (output_dir args)))
     && negb (stream_raw args)
  then
    {| csv := csv args; stream_raw := stream_raw args;
       interactive := true; output_dir := output_dir args;
       output_naming := output_naming args;
       id_delimiter := id_delimiter args; sample_rate := sample_rate args |}
  else args.

(** Lines 308-315: the combined audio, when there is some. *)
Definition write_combined (args : Args) : Run unit :=
  λ s,
    match all_audios s with
    | [] => (inr (), s)
    | _ => put (Stdout_wav (sample_rate args) (concat (all_audios s))) s
    end.

(** What [main] does with parsed arguments and the lines of text. *)
Definition speak (stdout_isatty : bool) (args : Args) (texts : list str)
  : Run unit :=
  let args := apply_csv args in
  let args := apply_isatty stdout_isatty args in
  for_each (line_body args) () texts;;
  write_combined args.

Definition initial : state := State [] 0 [].

(** *** The loop in closed form *)

(** Lines 213-220 over all the lines: the pairs of an id and a text that
    are passed on, up to the first line that cannot be split, and the
    exception of that line. *)
Fixpoint read_lines (args : Args) (texts : list str)
  : list (str * str) * option exn :=
  match texts with
  | [] => ([], None)
  | line :: texts =>
      match strip line with
      | [] => read_lines args texts
      | line =>
          match output_naming args with
          | ID =>
              match split_id (id_delimiter args) line with
              | inl e => ([], Some e)
              | inr id_and_text =>
                  let '(read, e) := read_lines args texts in
                  (id_and_text :: read, e)
              end
          | _ =>
              let '(read, e) := read_lines args texts in
              (([], line) :: read, e)
          end
      end
  end.

(** The audios of the sentences of the lines read, in order. *)
Definition audios_of (read : list (str * str)) : list (list Z) :=
  concat ((λ id_and_text, snd <$> larynx_text_to_speech id_and_text.2)
          <$> read).

Definition result_of (e : option exn) : exn + unit :=
  match e with
  | Some e => inl e
  | None => inr ()
  end.

(** The file name of sentence [text_idx] of a line in [ID] naming. *)
Definition id_file_name (line_id : str) (text_idx : nat) : str :=
  match text_idx with
  | O => line_id
  | S _ => line_id ++ [underscore] ++ str_of_nat (text_idx + 1)
  end.

(** What one sentence of a line gives in [ID] naming with an output
    directory. *)
Definition id_outputs (args : Args) (dir : Path) (line_id : str)
    (text_idx : nat) (audio : list Z) : list output :=
  (if interactive args then [Play_wav play_command (sample_rate args) audio]
   else [])
  ++ [Write_wav_file dir (id_file_name line_id text_idx ++ dot_wav)
        (sample_rate args) audio].
End Loop.

(** *** Choosing the models ([get_args], lines 657-729) *)

Definition hyphen : codepoint := 0x2D%N.

(** [s.rfind(c)] for a string [c] of one character: the highest index at
    which it occurs, -1 when it does not occur. *)
Fixpoint rfind (c : codepoint) (s : str) : Z :=
  match s with
  | [] => -1
  | d :: rest =>
      let found := rfind c rest in
      if decide (0 <= found) then found + 1
      else if bool_decide (d = c) then 0
      else -1
  end.

(** Line 657: [args.voice[args.voice.rfind("-") + 1 :]] *)
Definition tts_model_type_of_voice (voice : str) : str :=
  drop (Z.to_nat (rfind hyphen voice + 1)) voice.

(** How [get_args] ends when it gives no arguments back. *)
Inductive stop : Type :=
  (** [raise ValueError("Only one TTS model can be specified")] *)
  | ValueError_only_one_tts_model
  (** [sys.exit(status)] *)
  | SystemExit (status : Z)
  (** [voices_dirs[0]] and [voices_and_vocoders[0]] on an empty list *)
  | IndexError
  (** unpacking a list that is too short *)
  | ValueError_not_enough_values_to_unpack.

(** [if value:] on the value of an optional string argument. *)
Definition truthy (value : option str) : bool :=
  match value with
  | Some (_ :: _) => true
  | _ => false
  end.

(** Lines 691-698. [getattr] gives the value of the argument of each
    model type; [tts_model] is the pair of [args.tts_model_type] and
    [args.tts_model], which are set together. *)
Fixpoint tts_model_loop (getattr : str → option str)
    (tts_model_args : list str) (tts_model : option (str * str))
  : stop + option (str * str) :=
  match tts_model_args with
  | [] => inr tts_model
  | tts_model_arg :: rest =>
      match getattr tts_model_arg with
      | Some (c :: value) =>
          match tts_model with
          | Some _ => inl ValueError_only_one_tts_model
          | None =>
              tts_model_loop getattr rest
                (Some (tts_model_arg, c :: value))
          end
      | _ => tts_model_loop getattr rest tts_model
      end
  end.

Section Vocoder.
Context {Path : Type}.
(** [dir / name], [str(path)], [Path(s)] and [Path.cwd()]. *)
Context (joinpath : Path → str → Path).
Context (str_of_path : Path → str) (Path_of_str : str → Path) (cwd : Path).
(** The collaborators of [larynx.utils] and [url_format.format(voice=)],
    taken to return. *)
Context (valid_voice_dir : Path → bool).
Context (download_voice : str → Path → str → Path).
Context (format_url : str → str → str).



(** A call of [download_voice]. *)
Record download := Download {
  download_name : str;
  download_dir : Path;
  download_url : str
}.



(** The value of [args.vocoder_model_type]: the name of an argument, or
    the member [VocoderType.GRIFFIN_LIM]. *)
Inductive vocoder_type : Type :=
  | Named (vocoder_model_arg : str)
  | GRIFFIN_LIM.



End Vocoder.

(** *** The listing of voices and vocoders ([list_voices_vocoders],
    lines 540-606)

    The files [VOCODERS] and [VOICES] are given by their lines, and the
    scan of the voice directories (lines 503-538) by the dictionary
    [local_info] it fills. *)

(** [s.split()]: the pieces between runs of white space. *)
Fixpoint split_whitespace_from (piece s : str) : list str :=
  match s with
  | [] => match piece with [] => [] | _ => [piece] end
  | c :: rest =>
      if isspace c
      then match piece with
           | [] => split_whitespace_from [] rest
           | _ => piece :: split_whitespace_from [] rest
           end
      else split_whitespace_from (piece ++ [c]) rest
  end.

Definition split_whitespace (s : str) : list str :=
  split_whitespace_from [] s.

(** [sep.join(l)] *)
Fixpoint str_join (sep : str) (l : list str) : str :=
  match l with
  | [] => []
  | [s] => s
  | s :: rest => s ++ sep ++ str_join sep rest
  end.

(** [s.ljust(width)] *)
Definition ljust (width : nat) (s : str) : str :=
  s ++ replicate (width - length s) space.

(** Comparison of sequences with [<], as Python does it for strings and
    for tuples: the first elements that differ decide, and a proper
    prefix is smaller. *)
Fixpoint lex_ltb {A : Type} `{EqDecision A} (ltb : A → A → bool)
    (l1 l2 : list A) : bool :=
  match l1, l2 with
  | _, [] => false
  | [], _ :: _ => true
  | x :: l1, y :: l2 =>
      if bool_decide (x = y) then lex_ltb ltb l1 l2 else ltb x y
  end.

Definition str_ltb (s1 s2 : str) : bool := lex_ltb N.ltb s1 s2.

(** A tuple [(type, lang, downloaded, name, aliases, location)]. *)
Definition row : Type := str * str * str * str * str * str.

Definition cells (item : row) : list str :=
  let '(type, lang, downloaded, name, aliases, location) := item in
  [type; lang; downloaded; name; aliases; location].

Definition row_ltb (item1 item2 : row) : bool :=
  lex_ltb str_ltb (cells item1) (cells item2).

(** [sorted(items)]: each item goes before the first one that is
    greater. *)
Fixpoint insert_sorted (item : row) (items : list row) : list row :=
  match items with
  | [] => [item]
  | item' :: rest =>
      if row_ltb item item' then item :: item' :: rest
      else item' :: insert_sorted item rest
  end.

Definition sorted (items : list row) : list row :=
  foldl (λ done item, insert_sorted item done) [] items.

Definition vocoder_str : str := Demo.ascii_str "vocoder".
Definition voice_str : str := Demo.ascii_str "voice".
Definition comma : str := Demo.ascii_str ",".

(** [("TYPE", "LANG", "LOCAL", "NAME", "ALIASES", "LOCATION")] *)
Definition headers : list str :=
  [Demo.ascii_str "TYPE"; Demo.ascii_str "LANG"; Demo.ascii_str "LOCAL";
   Demo.ascii_str "NAME"; Demo.ascii_str "ALIASES";
   Demo.ascii_str "LOCATION"].

(** ["*" if downloaded else " "], where [downloaded] is set when the
    location is not empty. *)
Definition downloaded_mark (location : str) : str :=
  match location with
  | [] => [space]
  | _ => Demo.ascii_str "*"
  end.

(** Lines 548-564: the row of a line of [VOCODERS]. *)
Definition vocoder_row (local_info : gmap (str * str) str) (line : str)
  : stop + row :=
  match reverse (split_whitespace line) with
  | [] => inl ValueError_not_enough_values_to_unpack
  | full_vocoder_name :: aliases_reversed =>
      let vocoder_aliases := reverse aliases_reversed in
      let location :=
        default [] (local_info !! (vocoder_str, full_vocoder_name)) in
      inr (vocoder_str, [space], downloaded_mark location, full_vocoder_name,
           str_join comma vocoder_aliases, location)
  end.

(** Lines 572-590: the row of a line of [VOICES]. *)
Definition voice_row (local_info : gmap (str * str) str) (line : str)
  : stop + row :=
  match reverse (split_whitespace line) with
  | download_name :: full_voice_name :: aliases_reversed =>
      let voice_aliases := reverse aliases_reversed in
      let voice_lang :=
        match partition_first [underscore] download_name with
        | Some (before, _) => before
        | None => download_name
        end in
      let location :=
        default [] (local_info !! (voice_str, full_voice_name)) in
      inr (voice_str, voice_lang, downloaded_mark location, full_voice_name,
           str_join comma voice_aliases, location)
  | _ => inl ValueError_not_enough_values_to_unpack
  end.

(** The loops over the lines of a file (lines 543-564 and 567-590). *)
Fixpoint read_catalogue (row_of_line : str → stop + row) (lines : list str)
  : stop + list row :=
  match lines with
  | [] => inr []
  | line :: lines =>
      match strip line with
      | [] => read_catalogue row_of_line lines
      | line =>
          match row_of_line line with
          | inl e => inl e
          | inr item =>
              match read_catalogue row_of_line lines with
              | inl e => inl e
              | inr items => inr (item :: items)
              end
          end
      end
  end.

(** Lines 597-600: the loop over the columns for one item. *)
Definition widen (col_widths : list nat) (item : row) : list nat :=
  zip_with
    (λ (col_width : nat) (value_and_header : str * str),
       Nat.max col_width
         (Nat.max (length value_and_header.1 + 1)
                  (length value_and_header.2 + 1)))
    col_widths (zip (cells item) headers).

(** Lines 595-600. *)
Definition get_col_widths (voices_and_vocoders : list row)
  : stop + list nat :=
  match voices_and_vocoders with
  | [] => inl IndexError
  | first :: _ =>
      inr (foldl widen (replicate (length (cells first)) 0%nat)
             voices_and_vocoders)
  end.

(** What [print] writes for the values of a row, each one left-justified
    with [v.ljust(col_widths[col])] (lines 603 and 606), without the end
    of line. *)
Definition print_row (col_widths : list nat) (values : list str) : str :=
  str_join [space] (zip_with ljust col_widths values).

(** The values of a row fit the columns when each one is shorter than
    the width of its column. *)
Definition fits (col_widths : list nat) (values : list str) : Prop :=
  Forall2 (λ (col_width : nat) (value : str),
             (length value < col_width)%nat) col_widths values.

(** Lines 540-606: the lines printed. *)
Definition list_voices_vocoders (local_info : gmap (str * str) str)
    (vocoders_file voices_file : list str) : stop + list str :=
  match read_catalogue (vocoder_row local_info) vocoders_file with
  | inl e => inl e
  | inr vocoders =>
      match read_catalogue (voice_row local_info) voices_file with
      | inl e => inl e
      | inr voices =>
          let voices_and_vocoders := vocoders ++ voices in
          match get_col_widths voices_and_vocoders with
          | inl e => inl e
          | inr col_widths =>
              inr (print_row col_widths headers
                   :: (print_row col_widths ∘ cells
                       <$> sorted voices_and_vocoders))
          end
      end
  end.

(** Lines 688-703: [from_voice] is what lines 620-659 have set, [None]
    without [--voice]. Without any model the voices are listed before
    [sys.exit(1)]: the result comes with the lines printed, and is the
    exception of the listing when the listing raises. *)
Definition ensure_tts_model (getattr : str → option str)
    (tts_model_args : list str) (from_voice : option (str * str))
    (local_info : gmap (str * str) str)
    (vocoders_file voices_file : list str)
  : (stop + (str * str)) * list str :=
  match tts_model_loop getattr tts_model_args from_voice with
  | inl e => (inl e, [])
  | inr (Some tts_model) => (inr tts_model, [])
  | inr None =>
      match list_voices_vocoders local_info vocoders_file voices_file with
      | inl e => (inl e, [])
      | inr printed => (inl (SystemExit 1), printed)
      end
  end.
End Main.

(** ** Small inputs for the command line, and a language without breaks *)

Module MainDemo.
Import Main.

(** One sentence per piece between full stops; the samples of a sentence
    are the code points of its text. *)
Definition demo_speech (line : str) : list (str * list Z) :=
  (λ text : str, (text, Z.of_N <$> text)) <$> Demo.split_on 0x2E%N [] line.

Definition demo_time_str (n : nat) : str := str_of_nat n.

Definition demo_play_command : list str :=
  [Demo.ascii_str "play"; Demo.ascii_str "-"].

Definition bar : str := Demo.ascii_str "|".

(** Audio left to standard output. *)
Definition piped_args : @Args str :=
  {| csv := false; stream_raw := false; interactive := false;
     output_dir := None; output_naming := TEXT; id_delimiter := bar;
     sample_rate := 22050 |}.

Definition stream_args : @Args str :=
  {| csv := false; stream_raw := true; interactive := true;
     output_dir := Some (Demo.ascii_str "out"); output_naming := TEXT;
     id_delimiter := bar; sample_rate := 22050 |}.

Definition csv_args : @Args str :=
  {| csv := true; stream_raw := false; interactive := false;
     output_dir := None; output_naming := TEXT; id_delimiter := bar;
     sample_rate := 22050 |}.

Definition id_dir_args : @Args str :=
  {| csv := false; stream_raw := false; interactive := true;
     output_dir := Some (Demo.ascii_str "out"); output_naming := ID;
     id_delimiter := bar; sample_rate := 22050 |}.

Definition text_dir_args : @Args str :=
  {| csv := false; stream_raw := false; interactive := false;
     output_dir := Some (Demo.ascii_str "out"); output_naming := TEXT;
     id_delimiter := bar; sample_rate := 22050 |}.

Definition demo_texts : list str :=
  [Demo.ascii_str "  hi. yo  "; Demo.ascii_str "   "; Demo.ascii_str "ok"].

Definition demo_csv_texts : list str :=
  [Demo.ascii_str "a|hi. yo"; Demo.ascii_str "no delimiter here"].

Definition demo_speak (stdout_isatty : bool) (args : @Args str)
    (texts : list str) : (exn + unit) * @state str :=
  speak demo_speech demo_time_str demo_play_command stdout_isatty args texts
    initial.

(** Paths as strings, joined with a slash. *)
Definition demo_joinpath (dir name : str) : str := dir ++ [0x2F%N] ++ name.

Definition demo_download_voice (name dir url : str) : str :=
  demo_joinpath dir name.

Definition demo_format_url (url_format voice : str) : str :=
  url_format ++ voice.

(** The values of the vocoder arguments: only [--waveglow] is given. *)
Definition demo_getattr (arg : str) : option str :=
  if decide (arg = Demo.ascii_str "waveglow")
  then Some (Demo.ascii_str "/models/waveglow")
  else None.

(** The language of [Demo] with an inventory that has no breaks. *)
Definition breakless_lang : @Language str :=
  {| lang_id := 1;
     id_to_phonemes :=
       [Demo.ascii_str "h"; [0x0259%N]; [gruut_ipa.STRESS_PRIMARY];
        Demo.ascii_str "l"; [0x6F%N; 0x028A%N]];
     tokenize := Demo.demo_tokenize;
     phonemize := Demo.demo_phonemize |}.

Definition hello_sentence : @Sentence str :=
  {| clean_words := [Demo.ascii_str "hello"];
     tokens := [Demo.ascii_str "hello"] |}.

(** A catalogue of two vocoders and two voices, one of them local. *)
Definition demo_vocoders_file : list str :=
  [Demo.ascii_str "hifi_gan-universal_large"; Demo.ascii_str "";
   Demo.ascii_str "wg waveglow-256"].

Definition demo_voices_file : list str :=
  [Demo.ascii_str "harvard harvard-glow_tts en-us_harvard-glow_tts";
   Demo.ascii_str "kathleen-glow_tts en-us_kathleen-glow_tts"].

Definition demo_local_info : gmap (str * str) str :=
  {[ (voice_str, Demo.ascii_str "harvard-glow_tts")
     := Demo.ascii_str "/v/en-us/harvard-glow_tts" ]}.

(** What the listing prints for this catalogue. *)
Definition demo_listing : list str :=
  Eval vm_compute in
    match list_voices_vocoders demo_local_info demo_vocoders_file
            demo_voices_file with
    | inr lines => lines
    | inl _ => []
    end.
End MainDemo.

(** * Properties *)

(** ** The phonemes of one sentence *)

Section PhonemeFacts.
Context (is_stress : codepoint → bool) (BREAK_MAJOR : str).

Lemma add_phoneme_app first_pron phoneme :
  add_phoneme is_stress first_pron phoneme
  = first_pron ++ add_phoneme is_stress [] phoneme.
Proof.
  destruct phoneme as [|c rest]; simpl.
  - by rewrite app_nil_r.
  - destruct (is_stress c); simpl; by rewrite <- ?app_assoc.
Qed.

(** A phoneme that is a stress mark and nothing else passes the test for
    empty phonemes, and what is left of it after the mark is split off is
    the empty string. *)
Lemma add_phoneme_stress_only first_pron c :
  is_stress c = true →
  add_phoneme is_stress first_pron [c] = first_pron ++ [[c]; []].
Proof. intros Hc. simpl. rewrite Hc. by rewrite <- app_assoc. Qed.

(** It is the only way for the empty string to enter [first_pron]. *)
Lemma add_phoneme_empty_symbol first_pron phoneme :
  [] ∈ add_phoneme is_stress first_pron phoneme →
  [] ∈ first_pron ∨ ∃ c, phoneme = [c] ∧ is_stress c = true.
Proof.
  destruct phoneme as [|c rest]; simpl; [auto|].
  destruct (is_stress c) eqn:Hc.
  - rewrite !elem_of_app, !list_elem_of_singleton.
    intros [[?|[=]]| <-]; eauto.
  - rewrite elem_of_app, list_elem_of_singleton. intros [?|[=]]. auto.
Qed.

Lemma foldl_add_phoneme_app first_pron pron :
  foldl (add_phoneme is_stress) first_pron pron
  = first_pron ++ foldl (add_phoneme is_stress) [] pron.
Proof.
  revert first_pron. induction pron as [|ph pron IH] using rev_ind; intros fp.
  - simpl. by rewrite app_nil_r.
  - rewrite !foldl_app. simpl.
    rewrite add_phoneme_app, IH.
    rewrite (add_phoneme_app (foldl _ [] pron)).
    by rewrite app_assoc.
Qed.

Lemma add_word_app first_pron word_prons :
  add_word is_stress first_pron word_prons
  = first_pron ++ add_word is_stress [] word_prons.
Proof.
  destruct word_prons as [|pron0 others]; simpl.
  - by rewrite app_nil_r.
  - apply foldl_add_phoneme_app.
Qed.

Lemma pick_first_pron_snoc sentence_prons word_prons :
  pick_first_pron is_stress (sentence_prons ++ [word_prons])
  = pick_first_pron is_stress sentence_prons
    ++ add_word is_stress [] word_prons.
Proof.
  unfold pick_first_pron. rewrite foldl_app. simpl. apply add_word_app.
Qed.

Lemma end_sentence_last_two first_pron :
  ∃ front, end_sentence BREAK_MAJOR first_pron
           = front ++ [BREAK_MAJOR; BREAK_MAJOR].
Proof.
  unfold end_sentence. case_decide as Hlast.
  - apply last_Some in Hlast as [front ->].
    exists front. by rewrite <- app_assoc.
  - exists first_pron. by rewrite <- app_assoc.
Qed.

Lemma end_sentence_not_nil first_pron :
  end_sentence BREAK_MAJOR first_pron ≠ [].
Proof.
  destruct (end_sentence_last_two first_pron) as [front ->].
  by destruct front.
Qed.

Lemma sentence_phonemes_skipped sentence_prons :
  pick_first_pron is_stress sentence_prons = [] →
  sentence_phonemes is_stress BREAK_MAJOR sentence_prons = [].
Proof. unfold sentence_phonemes. by intros ->. Qed.

Lemma sentence_phonemes_kept sentence_prons :
  pick_first_pron is_stress sentence_prons ≠ [] →
  sentence_phonemes is_stress BREAK_MAJOR sentence_prons
  = end_sentence BREAK_MAJOR (pick_first_pron is_stress sentence_prons).
Proof.
  unfold sentence_phonemes.
  by destruct (pick_first_pron is_stress sentence_prons).
Qed.

Lemma sentence_phonemes_nil_iff sentence_prons :
  sentence_phonemes is_stress BREAK_MAJOR sentence_prons = []
  ↔ pick_first_pron is_stress sentence_prons = [].
Proof.
  split; [|apply sentence_phonemes_skipped].
  intros Hnil.
  destruct (decide (pick_first_pron is_stress sentence_prons = []))
    as [|Hkept]; [done|].
  rewrite (sentence_phonemes_kept _ Hkept) in Hnil.
  by apply end_sentence_not_nil in Hnil.
Qed.

(** C1. When the first pronunciations of a sentence give at least one
    phoneme, the sequence [text_to_speech] builds for the sentence is
    that pronunciation, followed by one major break unless its last
    phoneme already is one, followed by one more major break whatever
    came before; so its last two symbols are both the major break. *)
Theorem sentence_ends_with_two_major_breaks sentence_prons :
  pick_first_pron is_stress sentence_prons ≠ [] →
  let first_pron := pick_first_pron is_stress sentence_prons in
  sentence_phonemes is_stress BREAK_MAJOR sentence_prons
  = first_pron
    ++ (if decide (last first_pron = Some BREAK_MAJOR) then []
        else [BREAK_MAJOR])
    ++ [BREAK_MAJOR]
  ∧ ∃ front, sentence_phonemes is_stress BREAK_MAJOR sentence_prons
             = front ++ [BREAK_MAJOR; BREAK_MAJOR].
Proof.
  intros Hkept first_pron.
  rewrite (sentence_phonemes_kept _ Hkept). fold first_pron. split.
  - unfold end_sentence. case_decide; simpl; [done|].
    by rewrite <- app_assoc.
  - apply end_sentence_last_two.
Qed.
End PhonemeFacts.

(** ** The vocabulary and the encoder *)

Section VocabularyFacts.
Implicit Types (phonemes_list text_phonemes : list str) (p : str).
Implicit Types (phoneme_to_id : gmap str nat) (ids : list nat).

Lemma enumerate_snoc phonemes_list p :
  enumerate (phonemes_list ++ [p])
  = enumerate phonemes_list ++ [(length phonemes_list, p)].
Proof.
  unfold enumerate. rewrite imap_app. simpl.
  by rewrite Nat.add_0_r.
Qed.

Lemma dict_of_enumerate_snoc phonemes_list p :
  dict_of_enumerate (phonemes_list ++ [p])
  = <[p := length phonemes_list]> (dict_of_enumerate phonemes_list).
Proof.
  unfold dict_of_enumerate. by rewrite enumerate_snoc, foldl_app.
Qed.

(** An id read from the vocabulary is a position of its symbol. *)
Lemma dict_of_enumerate_lookup_Some phonemes_list p i :
  dict_of_enumerate phonemes_list !! p = Some i →
  phonemes_list !! i = Some p.
Proof.
  revert i. induction phonemes_list as [|q l IH] using rev_ind; intros i.
  - unfold dict_of_enumerate. simpl. by rewrite lookup_empty.
  - rewrite dict_of_enumerate_snoc.
    destruct (decide (q = p)) as [->|Hne].
    + rewrite lookup_insert_eq. intros [= <-].
      by rewrite lookup_app_r, Nat.sub_diag.
    + rewrite lookup_insert_ne by done. intros Hi.
      apply IH in Hi. by rewrite lookup_app_l by (by eapply lookup_lt_Some).
Qed.

(** Every symbol of the inventory has an id. *)
Lemma dict_of_enumerate_elem_of phonemes_list p :
  p ∈ phonemes_list → is_Some (dict_of_enumerate phonemes_list !! p).
Proof.
  induction phonemes_list as [|q l IH] using rev_ind.
  - by intros ?%elem_of_nil.
  - rewrite dict_of_enumerate_snoc.
    destruct (decide (q = p)) as [->|Hne].
    + rewrite lookup_insert_eq. eauto.
    + rewrite lookup_insert_ne by done.
      rewrite elem_of_app, list_elem_of_singleton.
      intros [Hin| ->]; [by apply IH | done].
Qed.

Lemma dict_of_enumerate_lookup_None phonemes_list p :
  p ∉ phonemes_list → dict_of_enumerate phonemes_list !! p = None.
Proof.
  intros Hnot.
  destruct (dict_of_enumerate phonemes_list !! p) as [i|] eqn:Hi; [|done].
  apply dict_of_enumerate_lookup_Some in Hi.
  destruct Hnot. by eapply list_elem_of_lookup_2.
Qed.


(** In an inventory without repetition the vocabulary is the inverse of
    the list: the id of a symbol is its one position. *)
Theorem ids_are_positions_without_repetition phonemes_list p i :
  NoDup phonemes_list →
  dict_of_enumerate phonemes_list !! p = Some i ↔ phonemes_list !! i = Some p.
Proof.
  intros Hnodup. split; [apply dict_of_enumerate_lookup_Some|].
  intros Hi.
  destruct (dict_of_enumerate_elem_of phonemes_list p) as [j Hj].
  { by eapply list_elem_of_lookup_2. }
  rewrite Hj. f_equal.
  apply dict_of_enumerate_lookup_Some in Hj.
  by eapply NoDup_lookup.
Qed.

Lemma getitem_Some phoneme_to_id p i :
  phoneme_to_id !! p = Some i → getitem phoneme_to_id p = inr i.
Proof. unfold getitem. by intros ->. Qed.

Lemma getitem_None phoneme_to_id p :
  phoneme_to_id !! p = None → getitem phoneme_to_id p = inl (KeyError p).
Proof. unfold getitem. by intros ->. Qed.

Lemma encode_cons phoneme_to_id p text_phonemes :
  encode_phonemes phoneme_to_id (p :: text_phonemes)
  = match phoneme_to_id !! p with
    | None => inl (KeyError p)
    | Some i =>
        match encode_phonemes phoneme_to_id text_phonemes with
        | inl e => inl e
        | inr ids => inr (i :: ids)
        end
    end.
Proof. simpl. unfold getitem. by destruct (phoneme_to_id !! p). Qed.

(** What [encode_phonemes] does, in full: either every symbol has an id and the
    ids are returned position by position, or the first symbol without
    an id is the key of the [KeyError]. *)
Lemma encode_spec phoneme_to_id text_phonemes :
  match encode_phonemes phoneme_to_id text_phonemes with
  | inr ids => Forall2 (λ p i, phoneme_to_id !! p = Some i) text_phonemes ids
  | inl e =>
      ∃ known p rest,
        text_phonemes = known ++ p :: rest
        ∧ Forall (λ q, is_Some (phoneme_to_id !! q)) known
        ∧ phoneme_to_id !! p = None
        ∧ e = KeyError p
  end.
Proof.
  induction text_phonemes as [|p ps IH].
  - simpl. constructor.
  - rewrite encode_cons.
    destruct (phoneme_to_id !! p) as [i|] eqn:Hp.
    + destruct (encode_phonemes phoneme_to_id ps) as [e|ids].
      * destruct IH as (known & q & rest & -> & Hknown & Hq & ->).
        exists (p :: known), q, rest. split_and!; try done.
        constructor; eauto.
      * by constructor.
    + exists [], p, ps. split_and!; done.
Qed.

Lemma encode_all_known phoneme_to_id text_phonemes :
  (∀ p, p ∈ text_phonemes → is_Some (phoneme_to_id !! p)) →
  ∃ ids, encode_phonemes phoneme_to_id text_phonemes = inr ids
         ∧ length ids = length text_phonemes
         ∧ ∀ k p, text_phonemes !! k = Some p →
                  ids !! k = phoneme_to_id !! p.
Proof.
  intros Hall.
  pose proof (encode_spec phoneme_to_id text_phonemes) as Hspec.
  destruct (encode_phonemes phoneme_to_id text_phonemes) as [e|ids].
  - destruct Hspec as (known & q & rest & -> & _ & Hq & ->).
    destruct (Hall q) as [i Hi].
    { rewrite elem_of_app, elem_of_cons. auto. }
    congruence.
  - exists ids. split_and!; [done|by apply Forall2_length in Hspec|].
    intros k p Hk.
    rewrite Forall2_lookup in Hspec.
    specialize (Hspec k). rewrite Hk in Hspec. by inversion Hspec.
Qed.

(** C2. When some symbol handed to the encoder has no id in the
    vocabulary, encoding raises [KeyError] (on the first such symbol) and
    returns no id at all; when every symbol has an id, encoding returns,
    position by position, the id of each symbol, so as many ids as there
    are symbols. *)
Theorem encode_raises_or_returns_the_ids phoneme_to_id text_phonemes :
  ((∃ p, p ∈ text_phonemes ∧ phoneme_to_id !! p = None) →
   ∃ q, encode_phonemes phoneme_to_id text_phonemes = inl (KeyError q)
        ∧ q ∈ text_phonemes ∧ phoneme_to_id !! q = None)
  ∧ ((∀ p, p ∈ text_phonemes → is_Some (phoneme_to_id !! p)) →
     ∃ ids, encode_phonemes phoneme_to_id text_phonemes = inr ids
            ∧ length ids = length text_phonemes
            ∧ ∀ k p, text_phonemes !! k = Some p →
                     ids !! k = phoneme_to_id !! p).
Proof.
  split; [|apply encode_all_known].
  intros (p & Hin & Hp).
  pose proof (encode_spec phoneme_to_id text_phonemes) as Hspec.
  destruct (encode_phonemes phoneme_to_id text_phonemes) as [e|ids].
  - destruct Hspec as (known & q & rest & -> & _ & Hq & ->).
    exists q. split_and!; [done| |done].
    rewrite elem_of_app, elem_of_cons. auto.
  - rewrite Forall2_lookup in Hspec.
    apply list_elem_of_lookup_1 in Hin as [k Hk].
    specialize (Hspec k). rewrite Hk in Hspec. inversion Hspec. congruence.
Qed.

Lemma decode_encode phonemes_list text_phonemes ids :
  encode_phonemes (dict_of_enumerate phonemes_list) text_phonemes = inr ids →
  decode_ids phonemes_list ids = Some text_phonemes.
Proof.
  intros Henc.
  pose proof (encode_spec (dict_of_enumerate phonemes_list) text_phonemes)
    as Hspec.
  rewrite Henc in Hspec. unfold decode_ids. apply mapM_Some.
  apply Forall2_flip. eapply Forall2_impl; [exact Hspec|].
  intros p i. apply dict_of_enumerate_lookup_Some.
Qed.

(** C5. For a sequence of symbols that all occur in the inventory of the
    language, encoding with the vocabulary built from the inventory
    returns ids, and reading each id back in the inventory list gives
    the sequence again. *)
Theorem encode_decode_round_trip phonemes_list text_phonemes :
  (∀ p, p ∈ text_phonemes → p ∈ phonemes_list) →
  ∃ ids,
    encode_phonemes (dict_of_enumerate phonemes_list) text_phonemes = inr ids
    ∧ decode_ids phonemes_list ids = Some text_phonemes.
Proof.
  intros Hknown.
  destruct (encode_all_known (dict_of_enumerate phonemes_list)
              text_phonemes) as (ids & Henc & _).
  { intros p Hp. by apply dict_of_enumerate_elem_of, Hknown. }
  exists ids. split; [done|]. by apply decode_encode.
Qed.
End VocabularyFacts.

(** ** Division of floats away from overflow and underflow *)

Section FloatFacts.
Implicit Types (q e : Z) (p : positive).

(** [digits2_pos] counts the binary digits, as [Pos.size] does. *)
Lemma digits2_pos_size p : digits2_pos p = Pos.size p.
Proof. induction p; simpl; congruence. Qed.

Lemma Zdigits2_log2 p : Zdigits2 (Zpos p) = Z.log2 (Zpos p) + 1.
Proof.
  simpl. rewrite digits2_pos_size.
  destruct p; simpl; lia.
Qed.

Lemma Zdigits2_pos_log2 (m : Z) : 0 < m → Zdigits2 m = Z.log2 m + 1.
Proof. destruct m; try lia. intros _. apply Zdigits2_log2. Qed.

Lemma shr_1_m mrs :
  0 <= shr_m mrs → shr_m (shr_1 mrs) = Z.shiftr (shr_m mrs) 1.
Proof.
  destruct mrs as [m r s]. simpl. intros Hm.
  rewrite <- Z.div2_spec.
  destruct m as [|[p|p|]|p]; simpl; try reflexivity; lia.
Qed.

Lemma iter_pos_shr_1_m (n : positive) : ∀ mrs,
  0 <= shr_m mrs →
  0 <= shr_m (SpecFloat.iter_pos shr_1 n mrs)
  ∧ shr_m (SpecFloat.iter_pos shr_1 n mrs) = Z.shiftr (shr_m mrs) (Zpos n).
Proof.
  induction n as [n IH|n IH|]; intros mrs Hm; simpl.
  - assert (H1 : 0 <= shr_m (shr_1 mrs))
      by (rewrite shr_1_m by done; by apply Z.shiftr_nonneg).
    destruct (IH _ H1) as [H2 E2]. destruct (IH _ H2) as [H3 E3].
    split; [done|].
    rewrite E3, E2, shr_1_m, !Z.shiftr_shiftr by lia. f_equal. lia.
  - destruct (IH _ Hm) as [H2 E2]. destruct (IH _ H2) as [H3 E3].
    split; [done|].
    rewrite E3, E2, !Z.shiftr_shiftr by lia. f_equal. lia.
  - rewrite shr_1_m by done. split; [by apply Z.shiftr_nonneg|done].
Qed.

(** A right shift by [n >= 0] places: the mantissa is shifted, the exponent
    is raised by [n]. *)
Lemma shr_spec mrs e (n : Z) :
  0 <= shr_m mrs → 0 <= n →
  shr_m (shr mrs e n).1 = Z.shiftr (shr_m mrs) n ∧ (shr mrs e n).2 = e + n.
Proof.
  intros Hm Hn. destruct n as [|p|p]; [| |lia]; simpl.
  - split; [done|lia].
  - split; [by apply iter_pos_shr_1_m|done].
Qed.

Lemma shr_m_record_of_loc (m : Z) l : shr_m (shr_record_of_loc m l) = m.
Proof. by destruct l as [|[]]. Qed.

Lemma round_nearest_even_bounds (m : Z) l :
  m <= round_nearest_even m l <= m + 1.
Proof. destruct l as [|[]]; simpl; try lia. destruct (Z.even m); lia. Qed.

(** Rounding a mantissa of at least 53 bits whose value lies in the range
    of the normal numbers gives a positive normal number, of the same
    order of magnitude or the next one. *)
Lemma binary_round_aux_normal q e l :
  0 < q → 52 <= Z.log2 q →
  -1021 <= Z.log2 q + 1 + e <= 1023 →
  ∃ m e',
    binary_round_aux prec emax false q e l = S754_finite false m e'
    ∧ Z.log2 q + 1 + e <= Z.log2 (Zpos m) + 1 + e' <= Z.log2 q + 2 + e.
Proof.
  intros Hq Hbits Hrange.
  unfold binary_round_aux.
  (* first shift *)
  unfold shr_fexp at 1.
  rewrite (Zdigits2_pos_log2 q Hq).
  set (n1 := fexp prec emax (Z.log2 q + 1 + e) - e).
  assert (Hn1 : n1 = Z.log2 q - 52).
  { unfold n1, fexp, SpecFloat.emin, prec, emax. lia. }
  destruct (shr_spec (shr_record_of_loc q l) e n1) as [Hm1 He1].
  { rewrite shr_m_record_of_loc. lia. }
  { lia. }
  rewrite shr_m_record_of_loc in Hm1.
  destruct (shr (shr_record_of_loc q l) e n1) as [mrs1 e1]. simpl in Hm1, He1.
  assert (Hlog1 : Z.log2 (shr_m mrs1) = 52).
  { rewrite Hm1, Z.log2_shiftr by done. lia. }
  assert (Hpos1 : 0 < shr_m mrs1).
  { destruct (Z.le_gt_cases (shr_m mrs1) 1) as [Hle|]; [|lia].
    apply Z.log2_null in Hle. lia. }
  (* rounding *)
  set (m2 := round_nearest_even (shr_m mrs1) (loc_of_shr_record mrs1)).
  pose proof (round_nearest_even_bounds (shr_m mrs1) (loc_of_shr_record mrs1))
    as Hm2. fold m2 in Hm2.
  assert (Hlog2 : 52 <= Z.log2 m2 <= 53).
  { split.
    - rewrite <- Hlog1. apply Z.log2_le_mono. lia.
    - transitivity (Z.log2 (Z.succ (shr_m mrs1))).
      + apply Z.log2_le_mono. lia.
      + pose proof (Z.log2_succ_le (shr_m mrs1)). lia. }
  (* second shift *)
  unfold shr_fexp.
  rewrite (Zdigits2_pos_log2 m2) by lia.
  set (n2 := fexp prec emax (Z.log2 m2 + 1 + e1) - e1).
  assert (Hn2 : n2 = Z.log2 m2 - 52).
  { unfold n2, fexp, SpecFloat.emin, prec, emax. lia. }
  destruct (shr_spec (shr_record_of_loc m2 loc_Exact) e1 n2) as [Hm3 He3].
  { rewrite shr_m_record_of_loc. lia. }
  { lia. }
  rewrite shr_m_record_of_loc in Hm3.
  destruct (shr (shr_record_of_loc m2 loc_Exact) e1 n2) as [mrs3 e3].
  simpl in Hm3, He3.
  assert (Hlog3 : Z.log2 (shr_m mrs3) = 52).
  { rewrite Hm3, Z.log2_shiftr by lia. lia. }
  destruct (shr_m mrs3) as [|m3|m3] eqn:Hm3'; [done| |done].
  rewrite (proj2 (Z.leb_le e3 (emax - prec))) by (unfold emax, prec; lia).
  exists m3, e3. split; [done|]. lia.
Qed.

(** The quotient of two positive finite floats whose orders of magnitude
    differ by at most 1000 is a positive finite float, and its order of
    magnitude is the difference of theirs, or up to two more. *)
Lemma SFdiv_normal mx ex my ey :
  let dx := Z.log2 (Zpos mx) + 1 + ex in
  let dy := Z.log2 (Zpos my) + 1 + ey in
  -1000 <= dx - dy <= 1000 →
  ∃ m e,
    SFdiv prec emax (S754_finite false mx ex) (S754_finite false my ey)
    = S754_finite false m e
    ∧ dx - dy <= Z.log2 (Zpos m) + 1 + e <= dx - dy + 2.
Proof.
  intros dx dy Hrange.
  unfold SFdiv, SFdiv_core_binary. cbn [xorb].
  rewrite !Zdigits2_log2. fold dx. fold dy.
  set (a := Z.log2 (Zpos mx)) in *. set (b := Z.log2 (Zpos my)) in *.
  assert (Ha : 0 <= a) by apply Z.log2_nonneg.
  assert (Hb : 0 <= b) by apply Z.log2_nonneg.
  set (e' := Z.min (fexp prec emax (dx - dy)) (ex - ey)).
  assert (He' : e' = Z.min (dx - dy - 53) (ex - ey)).
  { unfold e', fexp, SpecFloat.emin, prec, emax. lia. }
  set (s := ex - ey - e').
  assert (Hs : 0 <= s ∧ 53 - a + b <= s) by (unfold s, dx, dy in *; lia).
  set (m' := match s with
             | 0 => Zpos mx
             | Zpos _ => Z.shiftl (Zpos mx) s
             | Zneg _ => 0
             end).
  assert (Hm' : m' = Z.shiftl (Zpos mx) s).
  { unfold m'. destruct s; [by rewrite Z.shiftl_0_r|done|lia]. }
  assert (Hm'pos : 0 < m').
  { rewrite Hm', Z.shiftl_mul_pow2 by lia.
    apply Z.mul_pos_pos; [lia|]. apply Z.pow_pos_nonneg; lia. }
  assert (Hlogm' : Z.log2 m' = a + s).
  { rewrite Hm', Z.log2_shiftl by lia. done. }
  destruct (Z.div_eucl m' (Zpos my)) as [q r] eqn:Hdiv.
  assert (Hq : q = m' / Zpos my) by (unfold Z.div; by rewrite Hdiv).
  destruct (Z.log2_spec (Zpos my)) as [Hmy_lo Hmy_hi]; [lia|].
  fold b in Hmy_lo, Hmy_hi.
  assert (Hlow : Z.shiftr m' (b + 1) <= q).
  { rewrite Hq, Z.shiftr_div_pow2 by lia.
    apply Z.div_le_compat_l; lia. }
  assert (Hhigh : q <= Z.shiftr m' b).
  { rewrite Hq, Z.shiftr_div_pow2 by lia.
    apply Z.div_le_compat_l; [lia|]. split; [|done].
    apply Z.pow_pos_nonneg; lia. }
  assert (Hlogq : a + s - b - 1 <= Z.log2 q <= a + s - b).
  { split.
    - apply Z.log2_le_mono in Hlow.
      rewrite Z.log2_shiftr, Hlogm' in Hlow by done. lia.
    - apply Z.log2_le_mono in Hhigh.
      rewrite Z.log2_shiftr, Hlogm' in Hhigh by done. lia. }
  assert (Hqpos : 0 < q).
  { destruct (Z.le_gt_cases q 1) as [Hle|]; [|lia].
    apply Z.log2_null in Hle. lia. }
  destruct (binary_round_aux_normal q e' (new_location (Zpos my) r))
    as (m & e & Hround & Hmag); [done|lia|unfold s, dx, dy in *; lia|].
  exists m, e. split; [done|]. unfold s, dx, dy in *. lia.
Qed.
Lemma float_mag_finite s p e :
  float_mag (S754_finite s p e) = Z.log2 (Zpos p) + 1 + e.
Proof. unfold float_mag. by rewrite Zdigits2_log2. Qed.

(** A float that is positive and finite is a positive finite number. *)
Lemma float_pos_finite (x : float) :
  float_pos x = true → float_finite x = true →
  ∃ p e, x = S754_finite false p e.
Proof.
  intros Hpos Hfin.
  destruct x as [s|s| |s p e]; try done.
  destruct s; [done|]. eauto.
Qed.

(** An integer in [1, 2^63) has between 1 and 63 binary digits. *)
Lemma log2_int63 (a : Z) : 0 < a < 2 ^ 63 → 0 <= Z.log2 a <= 62.
Proof.
  intros [Hpos Hlt]. split; [apply Z.log2_nonneg|].
  apply Z.log2_lt_pow2 in Hlt; lia.
Qed.

(** Lines 123-125 away from overflow and underflow: both divisions give a
    positive finite float and raise nothing. *)
Lemma real_time_factor_normal (audio_len sample_rate : Z) (infer_sec : float) :
  0 < audio_len < 2 ^ 63 →
  0 < sample_rate < 2 ^ 63 →
  float_pos infer_sec = true →
  float_finite infer_sec = true →
  -900 <= float_mag infer_sec <= 900 →
  ∃ audio_sec rtf,
    real_time_factor audio_len sample_rate infer_sec = inr (audio_sec, rtf)
    ∧ float_pos audio_sec = true ∧ float_finite audio_sec = true
    ∧ float_pos rtf = true ∧ float_finite rtf = true.
Proof.
  intros Hlen Hrate Hpos Hfin Hmag.
  destruct (float_pos_finite infer_sec Hpos Hfin) as (pi & ei & ->).
  rewrite float_mag_finite in Hmag.
  destruct audio_len as [|pa|]; [lia| |lia].
  destruct sample_rate as [|pr|] eqn:Hsr; [lia| |lia].
  pose proof (log2_int63 _ Hlen) as Hla.
  pose proof (log2_int63 _ Hrate) as Hlr.
  destruct (SFdiv_normal pa 0 pr 0) as (pd & ed & Hdur & Hdmag); [lia|].
  destruct (SFdiv_normal pd ed pi ei) as (pf & ef & Hrtf & _); [lia|].
  exists (S754_finite false pd ed), (S754_finite false pf ef).
  split_and!; try done.
  unfold real_time_factor, int_truediv.
  rewrite decide_False by done. cbn [float_of_int].
  rewrite Hdur. unfold mbind, py_bind, float_truediv. cbn beta iota.
  by rewrite Hrtf.
Qed.
End FloatFacts.

(** ** Runs of [text_to_speech] *)

Section RuntimeFacts.
Context {Token Mels : Type}.
Context (is_stress : codepoint → bool) (BREAK_MAJOR : str).
Context (clock : nat → float).

Abbreviation Lang := (@Language Token).
Abbreviation W := (@world Token Mels).
Abbreviation Ev := (@event Token Mels).

Implicit Types (gruut_lang : Lang) (w : W) (sentences : list (@Sentence Token)).

(** Runs one step of a computation of [M] on a given state. *)
Ltac run_M :=
  unfold mbind, M_bind, mret, M_ret, debug, emit, lift, perf_counter,
    getattr_phoneme_to_id, setattr_phoneme_to_id; cbn.

Lemma bind_run {A B : Type} (m : @M Token Mels A)
    (k : A → @M Token Mels B) w :
  (m ≫= k) w
  = match m w with
    | (inl e, w') => (inl e, w')
    | (inr x, w') => k x w'
    end.
Proof. reflexivity. Qed.

Lemma sentence_body_run gruut_lang word_indexes acc sentence w :
  sentence_body is_stress BREAK_MAJOR gruut_lang word_indexes acc sentence w
  = (inr (acc.1 ++ clean_words sentence,
          acc.2 ++ sentence_phonemes is_stress BREAK_MAJOR
                     (phonemize gruut_lang (tokens sentence) word_indexes)),
     World (attrs w) (ticks w)
           (trace w ++ [Call_phonemize (tokens sentence)])).
Proof. reflexivity. Qed.

Lemma for_each_sentence_body gruut_lang word_indexes acc sentences w :
  for_each (sentence_body is_stress BREAK_MAJOR gruut_lang word_indexes)
    acc sentences w
  = (inr (acc.1 ++ utterance_words sentences,
          acc.2 ++ utterance_phonemes is_stress BREAK_MAJOR gruut_lang
                     word_indexes sentences),
     World (attrs w) (ticks w) (trace w ++ phonemize_calls sentences)).
Proof.
  revert acc w. induction sentences as [|s l IH]; intros [ws ps] w.
  - simpl. unfold mret, M_ret. rewrite !app_nil_r. by destruct w.
  - cbn [for_each]. rewrite bind_run, sentence_body_run, IH. cbn.
    unfold utterance_words, utterance_phonemes, phonemize_calls.
    cbn. by rewrite <- !app_assoc.
Qed.

Lemma get_phoneme_to_id_run gruut_lang w :
  get_phoneme_to_id gruut_lang w
  = (inr (vocabulary gruut_lang w),
     World (<[lang_id gruut_lang := vocabulary gruut_lang w]> (attrs w))
           (ticks w) (trace w ++ vocabulary_events gruut_lang w)).
Proof.
  unfold get_phoneme_to_id, vocabulary, vocabulary_events. run_M.
  destruct (attrs w !! lang_id gruut_lang) as [d|] eqn:Hattr; cbn.
  - rewrite app_nil_r, insert_id by done. by destruct w.
  - by rewrite <- app_assoc.
Qed.

(** *** Sentences without phonemes *)

Lemma utterance_phonemes_chunks gruut_lang word_indexes sentences :
  utterance_phonemes is_stress BREAK_MAJOR gruut_lang word_indexes sentences
  = concat (kept_chunks is_stress BREAK_MAJOR gruut_lang word_indexes
              sentences).
Proof.
  unfold utterance_phonemes, kept_chunks.
  induction sentences as [|s l IH]; [done|].
  cbn [fmap list_fmap concat]. rewrite IH, filter_cons.
  unfold first_pron_of at 1. case_decide as Hfp.
  - rewrite sentence_phonemes_kept by done. done.
  - by rewrite sentence_phonemes_skipped.
Qed.

Lemma kept_chunks_not_nil gruut_lang word_indexes sentences :
  Forall (λ chunk, chunk ≠ [])
    (kept_chunks is_stress BREAK_MAJOR gruut_lang word_indexes sentences).
Proof.
  unfold kept_chunks. apply Forall_fmap, Forall_forall.
  intros first_pron _. apply end_sentence_not_nil.
Qed.

Lemma kept_chunks_skip gruut_lang word_indexes before sentence after :
  first_pron_of is_stress gruut_lang word_indexes sentence = [] →
  kept_chunks is_stress BREAK_MAJOR gruut_lang word_indexes
    (before ++ sentence :: after)
  = kept_chunks is_stress BREAK_MAJOR gruut_lang word_indexes
      (before ++ after).
Proof.
  intros Hskip. unfold kept_chunks.
  rewrite !fmap_app, !filter_app, fmap_cons, filter_cons, Hskip.
  by rewrite decide_False by (intros Hne; by apply Hne).
Qed.

(** *** The run equation *)

Section Run.
Context (text : str) (gruut_lang : Lang).
Context (tts_model : @TextToSpeechModel Mels).
Context (vocoder_model : @VocoderModel Mels).
Context (sample_rate : Z).
Context (number_converters disable_currency word_indexes : bool).
Context (w : W).

Local Abbreviation text_phonemes :=
  (run_text_phonemes is_stress BREAK_MAJOR text gruut_lang number_converters
     disable_currency word_indexes).
Local Abbreviation before_encoding :=
  (events_before_encoding is_stress BREAK_MAJOR text gruut_lang
     number_converters disable_currency word_indexes w).
Local Abbreviation inference :=
  (events_of_inference clock tts_model vocoder_model w).
Local Abbreviation infer_sec := (run_infer_sec clock w).
Local Abbreviation final_attrs := (run_attrs gruut_lang w).

(** Every run of [text_to_speech] ends: with the [KeyError] of the
    encoder, with the exception of a division of the timing code, or
    with the waveform of the vocoder. *)
Lemma text_to_speech_run :
  text_to_speech is_stress BREAK_MAJOR clock text gruut_lang tts_model
    vocoder_model sample_rate number_converters disable_currency
    word_indexes w
  = match encode_phonemes (vocabulary gruut_lang w) text_phonemes with
    | inl e =>
        (inl e, World final_attrs (ticks w) (trace w ++ before_encoding))
    | inr phoneme_ids =>
        let audio := run_audio tts_model vocoder_model phoneme_ids in
        let events := before_encoding ++ inference phoneme_ids in
        match real_time_factor (Z.of_nat (length audio)) sample_rate
                infer_sec with
        | inl e => (inl e, World final_attrs (4 + ticks w) (trace w ++ events))
        | inr rtf =>
            (inr audio,
             World final_attrs (4 + ticks w)
               (trace w ++ events
                ++ [Debug (Log_real_time_factor rtf.2 rtf.1 infer_sec)]))
        end
    end.
Proof.
  unfold text_to_speech.
  rewrite bind_run, get_phoneme_to_id_run.
  rewrite bind_run. unfold emit at 1. cbn [attrs ticks trace].
  rewrite bind_run, for_each_sentence_body. cbn [attrs ticks trace fst snd].
  fold (run_sentences text gruut_lang number_converters disable_currency).
  fold text_phonemes. fold final_attrs.
  unfold events_before_encoding.
  destruct (encode_phonemes (vocabulary gruut_lang w) text_phonemes)
    as [e|phoneme_ids] eqn:Henc.
  - run_M. rewrite Henc. by rewrite <- !app_assoc.
  - run_M. rewrite Henc. cbn.
    fold (tts_start_time clock w).
    fold (run_audio tts_model vocoder_model phoneme_ids).
    change (clock (S (ticks w))) with (tts_end_time clock w).
    change (clock (S (S (ticks w)))) with (vocoder_start_time clock w).
    change (clock (S (S (S (ticks w))))) with (vocoder_end_time clock w).
    fold infer_sec.
    destruct (real_time_factor _ sample_rate infer_sec)
      as [e|rtf]; cbn; unfold events_of_inference; cbn;
      do 2 f_equal; repeat (rewrite <- app_assoc; cbn [app]); done.
Qed.
End Run.

(** *** The vocabulary is built once *)





Lemma builds_vocabulary_events gruut_lang w :
  builds (vocabulary_events gruut_lang w)
  = match attrs w !! lang_id gruut_lang with
    | Some _ => 0%nat
    | None => 1%nat
    end.
Proof.
  unfold vocabulary_events.
  by destruct (attrs w !! lang_id gruut_lang).
Qed.

Lemma builds_app (events1 events2 : list Ev) :
  builds (events1 ++ events2) = (builds events1 + builds events2)%nat.
Proof. unfold builds. by rewrite List.filter_app, length_app. Qed.


Lemma text_to_speech_keeps_vocabulary text gruut_lang tts_model vocoder_model
    sample_rate number_converters disable_currency word_indexes w :
  attrs (text_to_speech is_stress BREAK_MAJOR clock text gruut_lang tts_model
           vocoder_model sample_rate number_converters disable_currency
           word_indexes w).2
  = <[lang_id gruut_lang := vocabulary gruut_lang w]> (attrs w).
Proof.
  rewrite text_to_speech_run.
  destruct (encode_phonemes _ _) as [e|phoneme_ids]; [done|]. cbn zeta.
  by destruct (real_time_factor _ _ _).
Qed.

(** *** One waveform for the whole utterance *)

Lemma audios_made_app (events1 events2 : list Ev) :
  audios_made (events1 ++ events2)
  = (audios_made events1 + audios_made events2)%nat.
Proof. unfold audios_made. by rewrite List.filter_app, length_app. Qed.

Lemma phonemizes_after_audio_app (events1 events2 : list Ev) :
  audios_made events1 = 0%nat →
  phonemizes_after_audio (events1 ++ events2)
  = phonemizes_after_audio events2.
Proof.
  induction events1 as [|e l IH]; [done|].
  unfold audios_made. cbn [app phonemizes_after_audio List.filter].
  destruct (is_vocoder_call e); cbn; [done|apply IH].
Qed.

Lemma audios_made_phonemize_calls sentences :
  audios_made (phonemize_calls sentences : list Ev) = 0%nat.
Proof. by induction sentences. Qed.

Lemma audios_made_before_encoding text gruut_lang number_converters
    disable_currency word_indexes w :
  audios_made (events_before_encoding is_stress BREAK_MAJOR text gruut_lang
                 number_converters disable_currency word_indexes w) = 0%nat.
Proof.
  unfold events_before_encoding.
  rewrite !audios_made_app, audios_made_phonemize_calls.
  unfold vocabulary_events.
  by destruct (attrs w !! lang_id gruut_lang).
Qed.

(** C4, as the code has it. A call of [text_to_speech] first phonemizes
    every sentence of the utterance, then encodes the phonemes of all of
    them as one sequence, runs the mel stage once and the vocoder once on
    it, and returns that one waveform: it makes at most one waveform, and
    no sentence is phonemized after a waveform was made. The call returns
    the waveform exactly when the encoding and the timing arithmetic
    raise nothing: a returned waveform comes with ids from the encoder
    and a real-time factor from the timing code, and a call in which
    either raises ends with that exception. *)
Theorem one_waveform_for_the_whole_utterance text gruut_lang
    (tts_model : @TextToSpeechModel Mels) (vocoder_model : @VocoderModel Mels)
    sample_rate number_converters disable_currency word_indexes w :
  let result :=
    text_to_speech is_stress BREAK_MAJOR clock text gruut_lang tts_model
      vocoder_model sample_rate number_converters disable_currency
      word_indexes w in
  let sentences :=
    tokenize gruut_lang text number_converters (negb disable_currency) in
  let text_phonemes :=
    utterance_phonemes is_stress BREAK_MAJOR gruut_lang word_indexes
      sentences in
  ∃ added,
    trace result.2 = trace w ++ added
    ∧ (audios_made added ≤ 1)%nat
    ∧ phonemizes_after_audio added = false
    ∧ (∀ audio, result.1 = inr audio →
         ∃ phoneme_ids rtf,
           encode_phonemes (vocabulary gruut_lang w) text_phonemes
           = inr phoneme_ids
           ∧ real_time_factor (Z.of_nat (length audio)) sample_rate
               (run_infer_sec clock w)
             = inr rtf
           ∧ audio = mels_to_audio vocoder_model
                       (phonemes_to_mels tts_model phoneme_ids)
           ∧ added
             = events_before_encoding is_stress BREAK_MAJOR text gruut_lang
                 number_converters disable_currency word_indexes w
               ++ events_of_inference clock tts_model vocoder_model w
                    phoneme_ids
               ++ [Debug (Log_real_time_factor rtf.2 rtf.1
                            (run_infer_sec clock w))]
           ∧ audios_made added = 1%nat)
    ∧ (∀ phoneme_ids rtf,
         encode_phonemes (vocabulary gruut_lang w) text_phonemes
         = inr phoneme_ids →
         real_time_factor
           (Z.of_nat (length (run_audio tts_model vocoder_model phoneme_ids)))
           sample_rate (run_infer_sec clock w) = inr rtf →
         result.1 = inr (run_audio tts_model vocoder_model phoneme_ids))
    ∧ (∀ e,
         encode_phonemes (vocabulary gruut_lang w) text_phonemes = inl e →
         result.1 = inl e)
    ∧ (∀ phoneme_ids e,
         encode_phonemes (vocabulary gruut_lang w) text_phonemes
         = inr phoneme_ids →
         real_time_factor
           (Z.of_nat (length (run_audio tts_model vocoder_model phoneme_ids)))
           sample_rate (run_infer_sec clock w) = inl e →
         result.1 = inl e).
Proof.
  intros result sentences text_phonemes. unfold result.
  rewrite text_to_speech_run.
  fold sentences. fold text_phonemes.
  change (run_text_phonemes _ _ _ _ _ _ _) with text_phonemes.
  pose proof (audios_made_before_encoding text gruut_lang number_converters
                disable_currency word_indexes w) as Hbefore.
  destruct (encode_phonemes (vocabulary gruut_lang w) text_phonemes)
    as [e|phoneme_ids] eqn:Henc.
  - eexists. split_and!; [reflexivity|..]; cbn [fst].
    + rewrite Hbefore. lia.
    + rewrite <- (app_nil_r (events_before_encoding _ _ _ _ _ _ _ _)).
      by rewrite phonemizes_after_audio_app.
    + intros audio [=].
    + intros ? ? [=].
    + by intros ? [= <-].
    + intros ? ? [=].
  - cbn zeta.
    destruct (real_time_factor _ sample_rate (run_infer_sec clock w))
      as [e|rtf] eqn:Hrtf.
    + eexists. split_and!; [reflexivity|..]; cbn [fst].
      * rewrite !audios_made_app, Hbefore. cbn. lia.
      * by rewrite <- ?app_assoc, phonemizes_after_audio_app.
      * intros audio [=].
      * intros ? ? [= <-]. by rewrite Hrtf.
      * intros ? [=].
      * intros ? ? [= <-]. rewrite Hrtf. by intros [= <-].
    + eexists. split_and!; [reflexivity|..]; cbn [fst].
      * rewrite !audios_made_app, Hbefore. cbn. lia.
      * by rewrite <- ?app_assoc, phonemizes_after_audio_app.
      * intros audio [= <-]. exists phoneme_ids, rtf.
        split_and!; [done|exact Hrtf|done|by rewrite <- app_assoc|].
        by rewrite !audios_made_app, Hbefore.
      * by intros ? ? [= <-] _.
      * intros ? [=].
      * intros ? ? [= <-]. by rewrite Hrtf.
Qed.
(** *** Runs that do not reach the stages, and runs on nothing *)

(** A phoneme of the utterance without an id ends the run with [KeyError]
    on the first such phoneme, every phoneme before it having an id,
    before the clock is read and before either stage is called. *)
Theorem unknown_phoneme_stops_the_run text gruut_lang
    (tts_model : @TextToSpeechModel Mels) (vocoder_model : @VocoderModel Mels)
    sample_rate number_converters disable_currency word_indexes w p :
  let text_phonemes :=
    run_text_phonemes is_stress BREAK_MAJOR text gruut_lang number_converters
      disable_currency word_indexes in
  p ∈ text_phonemes →
  vocabulary gruut_lang w !! p = None →
  ∃ known q rest,
    text_phonemes = known ++ q :: rest
    ∧ Forall (λ k, is_Some (vocabulary gruut_lang w !! k)) known
    ∧ vocabulary gruut_lang w !! q = None
    ∧ text_to_speech is_stress BREAK_MAJOR clock text gruut_lang tts_model
        vocoder_model sample_rate number_converters disable_currency
        word_indexes w
      = (inl (KeyError q),
         World (run_attrs gruut_lang w) (ticks w)
           (trace w
            ++ events_before_encoding is_stress BREAK_MAJOR text gruut_lang
                 number_converters disable_currency word_indexes w)).
Proof.
  intros text_phonemes Hin Hp.
  rewrite text_to_speech_run. fold text_phonemes.
  pose proof (encode_spec (vocabulary gruut_lang w) text_phonemes) as Hspec.
  destruct (encode_phonemes (vocabulary gruut_lang w) text_phonemes)
    as [e|ids].
  - destruct Hspec as (known & q & rest & Heq & Hknown & Hq & ->).
    by exists known, q, rest.
  - rewrite Forall2_lookup in Hspec.
    apply list_elem_of_lookup_1 in Hin as [k Hk].
    specialize (Hspec k). rewrite Hk in Hspec. inversion Hspec. congruence.
Qed.

(** When no sentence of the utterance has phonemes, the run goes on all
    the same: the mel stage is called with the empty sequence of ids. *)
Theorem utterance_without_phonemes_is_still_inferred text gruut_lang tts_model
    vocoder_model sample_rate number_converters disable_currency
    word_indexes w :
  run_text_phonemes is_stress BREAK_MAJOR text gruut_lang number_converters
    disable_currency word_indexes = [] →
  Call_phonemes_to_mels []
  ∈ trace (text_to_speech is_stress BREAK_MAJOR clock text gruut_lang
             tts_model vocoder_model sample_rate number_converters
             disable_currency word_indexes w).2.
Proof.
  intros Hempty. rewrite text_to_speech_run, Hempty. cbn [encode_phonemes].
  unfold mret, py_ret. cbn zeta.
  destruct (real_time_factor _ _ _); cbn [snd trace];
    rewrite !elem_of_app; unfold events_of_inference;
    rewrite elem_of_cons; auto.
Qed.

(** *** Sentences without phonemes, and what goes downstream *)

(** The mel stage is called with the ids that the encoder returns. *)
Lemma mel_stage_called text gruut_lang (tts_model : @TextToSpeechModel Mels)
    (vocoder_model : @VocoderModel Mels) sample_rate number_converters
    disable_currency word_indexes w phoneme_ids :
  encode_phonemes (vocabulary gruut_lang w)
    (run_text_phonemes is_stress BREAK_MAJOR text gruut_lang number_converters
       disable_currency word_indexes)
  = inr phoneme_ids →
  Call_phonemes_to_mels phoneme_ids
  ∈ trace (text_to_speech is_stress BREAK_MAJOR clock text gruut_lang
             tts_model vocoder_model sample_rate number_converters
             disable_currency word_indexes w).2.
Proof.
  intros Henc. rewrite text_to_speech_run, Henc. cbn zeta.
  destruct (real_time_factor _ _ _); cbn [snd trace];
    rewrite !elem_of_app; unfold events_of_inference;
    rewrite elem_of_cons; auto.
Qed.

Lemma kept_chunks_nil gruut_lang word_indexes sentences :
  concat (kept_chunks is_stress BREAK_MAJOR gruut_lang word_indexes sentences)
  = []
  ↔ Forall (λ sentence,
              first_pron_of is_stress gruut_lang word_indexes sentence = [])
      sentences.
Proof.
  unfold kept_chunks. induction sentences as [|s l IH]; [done|].
  rewrite fmap_cons, filter_cons, Forall_cons.
  destruct (decide (first_pron_of is_stress gruut_lang word_indexes s ≠ []))
    as [Hs|Hs].
  - rewrite fmap_cons, concat_cons. split.
    + intros H. apply app_eq_nil in H as [H _].
      by apply end_sentence_not_nil in H.
    + by intros [? _].
  - apply dec_stable in Hs. rewrite IH. split; [done|by intros [_ ?]].
Qed.

(** C8, as the code has it. A sentence of the utterance whose first
    pronunciations give no phoneme is skipped: the loop body leaves
    [text_phonemes] as it was, and the phonemes of the utterance are the
    concatenation of the closed pronunciations, none of them empty, of the
    other sentences. That sequence is passed downstream whatever it is:
    it is what the encoder is given, and the mel stage is called with the
    ids the encoder returns. It is empty exactly when every other
    sentence is skipped too, and then the encoder is given the empty
    sequence and the mel stage is called with no id. *)
Theorem sentence_without_phonemes_is_skipped text gruut_lang
    (tts_model : @TextToSpeechModel Mels) (vocoder_model : @VocoderModel Mels)
    sample_rate number_converters disable_currency word_indexes acc before
    sentence after w :
  tokenize gruut_lang text number_converters (negb disable_currency)
  = before ++ sentence :: after →
  first_pron_of is_stress gruut_lang word_indexes sentence = [] →
  let text_phonemes :=
    run_text_phonemes is_stress BREAK_MAJOR text gruut_lang number_converters
      disable_currency word_indexes in
  let result :=
    text_to_speech is_stress BREAK_MAJOR clock text gruut_lang tts_model
      vocoder_model sample_rate number_converters disable_currency
      word_indexes w in
  let others_skipped :=
    Forall (λ other,
              first_pron_of is_stress gruut_lang word_indexes other = [])
      (before ++ after) in
  sentence_body is_stress BREAK_MAJOR gruut_lang word_indexes acc sentence w
  = (inr (acc.1 ++ clean_words sentence, acc.2),
     World (attrs w) (ticks w)
           (trace w ++ [Call_phonemize (tokens sentence)]))
  ∧ (for_each (sentence_body is_stress BREAK_MAJOR gruut_lang word_indexes)
       acc (before ++ sentence :: after) w).1
    = inr (acc.1 ++ utterance_words (before ++ sentence :: after),
           acc.2 ++ concat (kept_chunks is_stress BREAK_MAJOR gruut_lang
                              word_indexes (before ++ after)))
  ∧ Forall (λ chunk, chunk ≠ [])
      (kept_chunks is_stress BREAK_MAJOR gruut_lang word_indexes
         (before ++ after))
  ∧ text_phonemes
    = concat (kept_chunks is_stress BREAK_MAJOR gruut_lang word_indexes
                (before ++ after))
  ∧ (text_phonemes = [] ↔ others_skipped)
  ∧ (∀ e, encode_phonemes (vocabulary gruut_lang w) text_phonemes = inl e →
          result.1 = inl e)
  ∧ (∀ phoneme_ids,
       encode_phonemes (vocabulary gruut_lang w) text_phonemes
       = inr phoneme_ids →
       Call_phonemes_to_mels phoneme_ids ∈ trace result.2
       ∧ (phoneme_ids = [] ↔ others_skipped))
  ∧ (others_skipped →
     encode_phonemes (vocabulary gruut_lang w) text_phonemes = inr []
     ∧ Call_phonemes_to_mels [] ∈ trace result.2).
Proof.
  intros Htokens Hskip text_phonemes result others_skipped.
  assert (Hphonemes : text_phonemes
            = concat (kept_chunks is_stress BREAK_MAJOR gruut_lang
                        word_indexes (before ++ after))).
  { unfold text_phonemes, run_text_phonemes, run_sentences.
    by rewrite Htokens, utterance_phonemes_chunks, kept_chunks_skip. }
  assert (Hnil : text_phonemes = [] ↔ others_skipped).
  { rewrite Hphonemes. apply kept_chunks_nil. }
  split_and!.
  - rewrite sentence_body_run. unfold first_pron_of in Hskip.
    by rewrite sentence_phonemes_skipped, app_nil_r.
  - rewrite for_each_sentence_body. cbn [fst].
    by rewrite utterance_phonemes_chunks, kept_chunks_skip.
  - apply kept_chunks_not_nil.
  - exact Hphonemes.
  - exact Hnil.
  - intros e Henc. unfold result. rewrite text_to_speech_run.
    fold text_phonemes. by rewrite Henc.
  - intros phoneme_ids Henc. split; [by apply mel_stage_called|].
    rewrite <-Hnil.
    pose proof (encode_spec (vocabulary gruut_lang w) text_phonemes) as Hspec.
    rewrite Henc in Hspec. apply Forall2_length in Hspec.
    split; intros ->; apply nil_length_inv; simpl in Hspec; lia.
  - intros Hall. apply Hnil in Hall.
    assert (Henc : encode_phonemes (vocabulary gruut_lang w) text_phonemes
                   = inr []) by (by rewrite Hall).
    split; [done|]. by apply mel_stage_called.
Qed.

(** *** The real-time factor *)

(** C9, as the code has it. In a run whose waveform is not empty and has
    fewer than 2^63 samples, with a sample rate between 1 and 2^63 and a
    measured inference time that is a positive finite float of an order of
    magnitude between 2^-901 and 2^900 seconds, both divisions of the
    timing code raise nothing, the real-time factor is a strictly positive
    finite float, and the call returns the waveform of the vocoder, in
    which the real-time factor does not occur: it is only written to the
    log. *)
Theorem real_time_factor_is_positive_and_finite text gruut_lang tts_model
    vocoder_model sample_rate number_converters disable_currency
    word_indexes w phoneme_ids :
  let audio := run_audio tts_model vocoder_model phoneme_ids in
  let infer_sec := run_infer_sec clock w in
  encode_phonemes (vocabulary gruut_lang w)
    (run_text_phonemes is_stress BREAK_MAJOR text gruut_lang number_converters
       disable_currency word_indexes) = inr phoneme_ids →
  audio ≠ [] →
  Z.of_nat (length audio) < 2 ^ 63 →
  0 < sample_rate < 2 ^ 63 →
  float_pos infer_sec = true →
  float_finite infer_sec = true →
  -900 <= float_mag infer_sec <= 900 →
  ∃ audio_sec rtf,
    real_time_factor (Z.of_nat (length audio)) sample_rate infer_sec
    = inr (audio_sec, rtf)
    ∧ float_pos rtf = true
    ∧ float_finite rtf = true
    ∧ text_to_speech is_stress BREAK_MAJOR clock text gruut_lang tts_model
        vocoder_model sample_rate number_converters disable_currency
        word_indexes w
      = (inr (mels_to_audio vocoder_model
                (phonemes_to_mels tts_model phoneme_ids)),
         World (run_attrs gruut_lang w) (4 + ticks w)
           (trace w
            ++ (events_before_encoding is_stress BREAK_MAJOR text gruut_lang
                  number_converters disable_currency word_indexes w
                ++ events_of_inference clock tts_model vocoder_model w
                     phoneme_ids)
            ++ [Debug (Log_real_time_factor rtf audio_sec infer_sec)])).
Proof.
  intros audio infer_sec Henc Haudio Hlen Hrate Hpos Hfin Hmag.
  destruct (real_time_factor_normal (Z.of_nat (length audio)) sample_rate
              infer_sec) as (audio_sec & rtf & Hrtf & _ & _ & Hrpos & Hrfin);
    try done.
  { split; [|done]. destruct audio; [done|]. cbn [length]. lia. }
  exists audio_sec, rtf. split_and!; try done.
  rewrite text_to_speech_run, Henc. cbn zeta.
  fold audio. fold infer_sec. by rewrite Hrtf.
Qed.
End RuntimeFacts.

(** ** The loaders *)

Section LoaderFacts.
Context {TextToSpeechType VocoderType : Type}.
Context `{!EqDecision TextToSpeechType, !EqDecision VocoderType}.
Context (TACOTRON2 : TextToSpeechType) (GRIFFIN_LIM HIFI_GAN : VocoderType).
Context {Path TextToSpeechModel VocoderModel : Type}.
Context (Tacotron2TextToSpeech
           : @TextToSpeechModelConfig Path → TextToSpeechModel).
Context (GriffinLimVocoder HiFiGanVocoder
           : @VocoderModelConfig Path → VocoderModel).

Abbreviation LoadError := (@ValueError TextToSpeechType VocoderType).

(** C7. [load_tts_model] returns the stage built by the Tacotron2
    constructor for the Tacotron2 tag and raises [ValueError] for every
    other tag; [load_vocoder_model] returns the stage built by the
    Griffin-Lim constructor for the Griffin-Lim tag, the one built by the
    HiFi-GAN constructor for the HiFi-GAN tag, and raises [ValueError]
    for every other tag. The constructor receives the model path and the
    session options made from [no_optimizations]. *)
Theorem loaders_dispatch_on_the_type_tag
    (tts_type : TextToSpeechType) (vocoder_type : VocoderType)
    (model_path : Path) (no_optimizations : bool) :
  let tts_config :=
    {| tts_model_path := model_path;
       tts_session_options := make_session_options no_optimizations |} in
  let vocoder_config :=
    {| vocoder_model_path := model_path;
       vocoder_session_options := make_session_options no_optimizations |} in
  load_tts_model TACOTRON2 Tacotron2TextToSpeech TACOTRON2 model_path
    no_optimizations
  = (inr (Tacotron2TextToSpeech tts_config) : LoadError + TextToSpeechModel)
  ∧ (tts_type ≠ TACOTRON2 →
     load_tts_model TACOTRON2 Tacotron2TextToSpeech tts_type model_path
       no_optimizations
     = (inl (Unknown_text_to_speech_model_type tts_type)
        : LoadError + TextToSpeechModel))
  ∧ load_vocoder_model GRIFFIN_LIM HIFI_GAN GriffinLimVocoder HiFiGanVocoder
      GRIFFIN_LIM model_path no_optimizations
    = (inr (GriffinLimVocoder vocoder_config) : LoadError + VocoderModel)
  ∧ (HIFI_GAN ≠ GRIFFIN_LIM →
     load_vocoder_model GRIFFIN_LIM HIFI_GAN GriffinLimVocoder HiFiGanVocoder
       HIFI_GAN model_path no_optimizations
     = (inr (HiFiGanVocoder vocoder_config) : LoadError + VocoderModel))
  ∧ (vocoder_type ≠ GRIFFIN_LIM → vocoder_type ≠ HIFI_GAN →
     load_vocoder_model GRIFFIN_LIM HIFI_GAN GriffinLimVocoder HiFiGanVocoder
       vocoder_type model_path no_optimizations
     = (inl (Unknown_vocoder_model_type vocoder_type)
        : LoadError + VocoderModel)).
Proof.
  intros tts_config vocoder_config.
  unfold load_tts_model, load_vocoder_model. split_and!.
  - by rewrite decide_True.
  - intros Hother. by rewrite decide_False.
  - by rewrite decide_True.
  - intros Hdistinct. by rewrite decide_False, decide_True.
  - intros Hne1 Hne2. by rewrite !decide_False.
Qed.
End LoaderFacts.

(** ** Runs on the small language *)

Section Checks.
Import gruut_ipa Demo.

(** The sequence built for the sentence [hello world]. *)
Lemma sentence_ends_with_two_major_breaks_witness :
  let sentence_prons :=
    demo_phonemize [ascii_str "hello"; ascii_str "world"] false in
  pick_first_pron is_stress sentence_prons ≠ []
  ∧ ∃ front, sentence_phonemes is_stress BREAK_MAJOR sentence_prons
             = front ++ [BREAK_MAJOR; BREAK_MAJOR].
Proof.
  intros sentence_prons.
  assert (Hkept : pick_first_pron is_stress sentence_prons ≠ [])
    by (vm_compute; discriminate).
  split; [exact Hkept|].
  apply (sentence_ends_with_two_major_breaks is_stress BREAK_MAJOR
           sentence_prons Hkept).
Defined.

Lemma encode_decode_round_trip_witness :
  let text_phonemes :=
    [ascii_str "h"; [0x0259%N]; [STRESS_PRIMARY]; ascii_str "l";
     BREAK_MAJOR; BREAK_MAJOR] in
  (∀ p, p ∈ text_phonemes → p ∈ demo_phonemes)
  ∧ ∃ ids,
      encode_phonemes (dict_of_enumerate demo_phonemes) text_phonemes = inr ids
      ∧ decode_ids demo_phonemes ids = Some text_phonemes.
Proof.
  intros text_phonemes.
  assert (Hknown : ∀ p, p ∈ text_phonemes → p ∈ demo_phonemes).
  { apply Forall_forall.
    apply (bool_decide_unpack
             (Forall (λ p, p ∈ demo_phonemes) text_phonemes)).
    by vm_compute. }
  split; [exact Hknown|].
  apply (encode_decode_round_trip demo_phonemes text_phonemes Hknown).
Defined.

Lemma sentence_without_phonemes_is_skipped_witness :
  let text := ascii_str "hello. xyz. world." in
  let before := demo_tokenize (ascii_str "hello.") false true in
  let after := demo_tokenize (ascii_str "world.") false true in
  let text_phonemes :=
    run_text_phonemes is_stress BREAK_MAJOR text demo_lang false false false in
  let result := demo_run text default_sample_rate in
  tokenize demo_lang text false (negb false)
  = before ++ unknown_sentence :: after
  ∧ first_pron_of is_stress demo_lang false unknown_sentence = []
  ∧ text_phonemes
    = concat (kept_chunks is_stress BREAK_MAJOR demo_lang false
                (before ++ after))
  ∧ (text_phonemes = []
     ↔ Forall (λ other, first_pron_of is_stress demo_lang false other = [])
         (before ++ after))
  ∧ ∀ phoneme_ids,
      encode_phonemes (vocabulary demo_lang empty_world) text_phonemes
      = inr phoneme_ids →
      Call_phonemes_to_mels phoneme_ids ∈ trace result.2
      ∧ (phoneme_ids = []
         ↔ Forall (λ other,
                     first_pron_of is_stress demo_lang false other = [])
             (before ++ after)).
Proof.
  intros text before after text_phonemes result.
  assert (Htokens : tokenize demo_lang text false (negb false)
                    = before ++ unknown_sentence :: after) by reflexivity.
  assert (Hskip : first_pron_of is_stress demo_lang false unknown_sentence
                  = []) by reflexivity.
  destruct (sentence_without_phonemes_is_skipped is_stress BREAK_MAJOR
              demo_clock text demo_lang demo_tts demo_vocoder
              default_sample_rate false false false ([], []) before
              unknown_sentence after empty_world Htokens Hskip)
    as (_ & _ & _ & Hphonemes & Hnil & _ & Hmels & _).
  split_and!; [exact Htokens|exact Hskip|exact Hphonemes|exact Hnil
              |exact Hmels].
Defined.

(** C8, as stated, fails: the one sentence of [xyz.] has no phonemes and
    is skipped, and the empty phoneme sequence goes downstream all the
    same: the encoder is given it and returns no id, and the mel stage
    and the vocoder are called on nothing. *)
Lemma skipped_sentence_still_reaches_the_mel_stage :
  let text := ascii_str "xyz." in
  let result := demo_run text default_sample_rate in
  tokenize demo_lang text false true = [unknown_sentence]
  ∧ first_pron_of is_stress demo_lang false unknown_sentence = []
  ∧ run_text_phonemes is_stress BREAK_MAJOR text demo_lang false false false
    = []
  ∧ encode_phonemes (vocabulary demo_lang empty_world) [] = inr []
  ∧ Call_phonemes_to_mels [] ∈ trace result.2
  ∧ Call_mels_to_audio [] ∈ trace result.2
  ∧ result.1 = inr [].
Proof.
  intros text result. split_and!; [reflexivity..| | |].
  - apply list_elem_of_In. vm_compute.
    repeat first [left; reflexivity | right].
  - apply list_elem_of_In. vm_compute.
    repeat first [left; reflexivity | right].
  - by vm_compute.
Qed.

(** C4, as stated, fails: on the two sentences of [hello. world.] the
    call returns one waveform and makes no waveform before the second
    sentence is phonemized. *)
Lemma two_sentences_give_one_waveform :
  let result := demo_run hello_world default_sample_rate in
  let sentences := demo_tokenize hello_world false true in
  length sentences = 2%nat
  ∧ (∃ audio, result.1 = inr audio)
  ∧ audios_made (trace result.2) = 1%nat
  ∧ phonemizes_after_audio (trace result.2) = false
  ∧ ¬ emitted_per_sentence (length sentences) (trace result.2).
Proof.
  intros result sentences. split_and!.
  - reflexivity.
  - eexists. vm_compute. reflexivity.
  - by vm_compute.
  - by vm_compute.
  - intros [Hcount _]. vm_compute in Hcount. discriminate.
Qed.

(** C10. The word pronunciation whose one phoneme is the primary stress
    mark gives the symbols [ˈ] and the empty string; with the two major
    breaks they are the phonemes of the sentence, the empty string is
    looked up in the vocabulary, and the run ends with [KeyError] on the
    empty string when the vocabulary has the stress mark but not the
    empty string. *)
Theorem stress_only_phoneme_adds_the_empty_symbol :
  let sentence_prons := [[[[STRESS_PRIMARY]]]] in
  pick_first_pron is_stress sentence_prons = [[STRESS_PRIMARY]; []]
  ∧ sentence_phonemes is_stress BREAK_MAJOR sentence_prons
    = [[STRESS_PRIMARY]; []; BREAK_MAJOR; BREAK_MAJOR]
  ∧ (∀ phoneme_to_id : gmap str nat,
       is_Some (phoneme_to_id !! [STRESS_PRIMARY]) →
       phoneme_to_id !! [] = None →
       encode_phonemes phoneme_to_id
         (sentence_phonemes is_stress BREAK_MAJOR sentence_prons)
       = inl (KeyError []))
  ∧ demo_phonemize [ascii_str "'"] false = sentence_prons
  ∧ (demo_run (ascii_str "'.") default_sample_rate).1 = inl (KeyError []).
Proof.
  intros sentence_prons. split_and!.
  - unfold sentence_prons, pick_first_pron. cbn [foldl add_word].
    by rewrite add_phoneme_stress_only.
  - reflexivity.
  - intros phoneme_to_id [i Hstress] Hempty.
    change (sentence_phonemes is_stress BREAK_MAJOR sentence_prons)
      with [[STRESS_PRIMARY]; []; BREAK_MAJOR; BREAK_MAJOR].
    by rewrite !encode_cons, Hstress, Hempty.
  - reflexivity.
  - by vm_compute.
Qed.

(** C3 does not hold of the code: the closure evaluates
    [phoneme_map.get(p, p)] and returns nothing, for a phoneme of the map
    ([a], mapped to [b]) and for one outside it ([c]) alike. *)
Theorem phoneme_map_transform_returns_nothing :
  phoneme_map_transform demo_phoneme_map (ascii_str "a") = None
  ∧ dict_get demo_phoneme_map (ascii_str "a") (Mapped_str (ascii_str "a"))
    = Mapped_str (ascii_str "b")
  ∧ phoneme_map_transform demo_phoneme_map (ascii_str "c") = None
  ∧ dict_get demo_phoneme_map (ascii_str "c") (Mapped_str (ascii_str "c"))
    = Mapped_str (ascii_str "c")
  ∧ ∀ phoneme_map p, phoneme_map_transform phoneme_map p = None.
Proof. split_and!; by vm_compute. Qed.

Lemma real_time_factor_is_positive_and_finite_witness :
  ∃ audio_sec rtf,
    real_time_factor 56 default_sample_rate
      (run_infer_sec demo_clock empty_world)
    = inr (audio_sec, rtf)
    ∧ float_pos rtf = true
    ∧ float_finite rtf = true
    ∧ demo_run hello_world default_sample_rate
      = (inr (run_audio demo_tts demo_vocoder hello_world_ids),
         World (run_attrs demo_lang empty_world) 4
           (trace empty_world
            ++ (events_before_encoding is_stress BREAK_MAJOR hello_world
                  demo_lang false false false empty_world
                ++ events_of_inference demo_clock demo_tts demo_vocoder
                     empty_world hello_world_ids)
            ++ [Debug (Log_real_time_factor rtf audio_sec
                         (run_infer_sec demo_clock empty_world))])).
Proof.
  apply (real_time_factor_is_positive_and_finite is_stress BREAK_MAJOR
           demo_clock hello_world demo_lang demo_tts demo_vocoder
           default_sample_rate false false false empty_world hello_world_ids).
  - by vm_compute.
  - by vm_compute.
  - by vm_compute.
  - by vm_compute.
  - by vm_compute.
  - by vm_compute.
  - by vm_compute.
Defined.

(** C9, as stated, fails. With the sample rate -22050 the run on
    [hello. world.] returns a waveform of 56 samples after a positive
    inference time of 0.75 s, and the real-time factor it logs is negative;
    with the sample rate 0 the first division raises [ZeroDivisionError]
    and no waveform is returned. At the default sample rate an inference
    time of 2^-1074 s makes the real-time factor infinite; a sample rate of
    2^1100 makes it zero. *)
Lemma real_time_factor_negative_zero_or_infinite :
  let infer_sec := run_infer_sec demo_clock empty_world in
  let result := demo_run hello_world (-22050) in
  (∃ audio, result.1 = inr audio ∧ length audio = 56%nat)
  ∧ float_pos infer_sec = true
  ∧ (∃ audio_sec rtf,
       real_time_factor 56 (-22050) infer_sec = inr (audio_sec, rtf)
       ∧ last (trace result.2)
         = Some (Debug (Log_real_time_factor rtf audio_sec infer_sec))
       ∧ float_pos rtf = false)
  ∧ ¬ (∃ audio_sec rtf,
         real_time_factor 56 (-22050) infer_sec = inr (audio_sec, rtf)
         ∧ float_pos rtf = true ∧ float_finite rtf = true)
  ∧ (demo_run hello_world 0).1 = inl ZeroDivisionError
  ∧ (∃ audio_sec,
       real_time_factor 22050 default_sample_rate (S754_finite false 1 (-1074))
       = inr (audio_sec, S754_infinity false))
  ∧ real_time_factor 1 (2 ^ 1100) (S754_finite false 1 0)
    = inr (S754_zero false, S754_zero false).
Proof.
  intros infer_sec result. split_and!.
  - eexists. split; by vm_compute.
  - by vm_compute.
  - do 2 eexists. split_and!; by vm_compute.
  - intros (audio_sec & rtf & Hrtf & Hpos & _).
    vm_compute in Hrtf. injection Hrtf as <- <-. by vm_compute in Hpos.
  - by vm_compute.
  - eexists. by vm_compute.
  - by vm_compute.
Qed.

(** The loaders on string tags: an unknown tag of either kind, and the
    HiFi-GAN vocoder with optimisations switched off. *)
Lemma loaders_on_the_demo_tags :
  load_tts_model (VocoderType := string) TACOTRON2 Tacotron2_stage
    "glow_tts" "voices/glow" false
  = inl (Unknown_text_to_speech_model_type "glow_tts")
  ∧ load_vocoder_model (TextToSpeechType := string) GRIFFIN_LIM HIFI_GAN
      GriffinLim_stage HiFiGan_stage "waveglow" "vocoders/wg" false
    = inl (Unknown_vocoder_model_type "waveglow")
  ∧ load_vocoder_model (TextToSpeechType := string) GRIFFIN_LIM HIFI_GAN
      GriffinLim_stage HiFiGan_stage "hifi_gan" "vocoders/hifi" true
    = inr (HiFiGan_stage
             {| vocoder_model_path := "vocoders/hifi";
                vocoder_session_options :=
                  {| graph_optimization_level := ORT_DISABLE_ALL |} |}).
Proof. split_and!; reflexivity. Qed.

Lemma ids_are_positions_without_repetition_witness :
  NoDup demo_phonemes
  ∧ (dict_of_enumerate demo_phonemes !! BREAK_MAJOR = Some 1%nat
     ↔ demo_phonemes !! 1%nat = Some BREAK_MAJOR).
Proof.
  assert (Hnodup : NoDup demo_phonemes).
  { apply (bool_decide_unpack (NoDup demo_phonemes)). by vm_compute. }
  split; [exact Hnodup|].
  apply (ids_are_positions_without_repetition demo_phonemes BREAK_MAJOR 1
           Hnodup).
Defined.

Lemma unknown_phoneme_stops_the_run_witness :
  let text := ascii_str "'." in
  let text_phonemes :=
    run_text_phonemes is_stress BREAK_MAJOR text demo_lang false false false in
  [] ∈ text_phonemes
  ∧ vocabulary demo_lang empty_world !! [] = None
  ∧ ∃ known q rest,
      text_phonemes = known ++ q :: rest
      ∧ Forall (λ k, is_Some (vocabulary demo_lang empty_world !! k)) known
      ∧ vocabulary demo_lang empty_world !! q = None
      ∧ demo_run text default_sample_rate
        = (inl (KeyError q),
           World (run_attrs demo_lang empty_world) 0
             (trace empty_world
              ++ events_before_encoding is_stress BREAK_MAJOR text demo_lang
                   false false false empty_world)).
Proof.
  intros text text_phonemes.
  assert (Hin : [] ∈ text_phonemes).
  { apply list_elem_of_In. vm_compute. tauto. }
  assert (Hnone : vocabulary demo_lang empty_world !! [] = None)
    by (by vm_compute).
  split_and!; [exact Hin|exact Hnone|].
  apply (unknown_phoneme_stops_the_run is_stress BREAK_MAJOR demo_clock text
           demo_lang demo_tts demo_vocoder default_sample_rate false false
           false empty_world [] Hin Hnone).
Defined.

Lemma utterance_without_phonemes_is_still_inferred_witness :
  run_text_phonemes is_stress BREAK_MAJOR [] demo_lang false false false = []
  ∧ Call_phonemes_to_mels [] ∈ trace (demo_run [] default_sample_rate).2.
Proof.
  assert (Hempty : run_text_phonemes is_stress BREAK_MAJOR [] demo_lang false
                     false false = []) by reflexivity.
  split; [exact Hempty|].
  apply (utterance_without_phonemes_is_still_inferred is_stress BREAK_MAJOR
           demo_clock [] demo_lang demo_tts demo_vocoder default_sample_rate
           false false false empty_world Hempty).
Defined.
End Checks.

(** ** More on the phonemes of a sentence *)

Section PhonemeInvariants.
Context (is_stress : codepoint → bool) (BREAK_MAJOR : str).

Lemma concat_add_phoneme first_pron phoneme :
  concat (add_phoneme is_stress first_pron phoneme)
  = concat first_pron ++ phoneme.
Proof.
  destruct phoneme as [|c rest]; simpl.
  - by rewrite app_nil_r.
  - destruct (is_stress c); rewrite !concat_app; simpl;
      by rewrite ?app_nil_r, <- ?app_assoc.
Qed.

Lemma concat_foldl_add_phoneme first_pron pron :
  concat (foldl (add_phoneme is_stress) first_pron pron)
  = concat first_pron ++ concat pron.
Proof.
  revert first_pron. induction pron as [|ph pron IH]; intros fp; simpl.
  - by rewrite app_nil_r.
  - by rewrite IH, concat_add_phoneme, <- app_assoc.
Qed.

Lemma concat_foldl_add_word first_pron (sentence_prons : list (list (list str))) :
  concat (foldl (add_word is_stress) first_pron sentence_prons)
  = concat first_pron ++ concat (concat (omap head sentence_prons)).
Proof.
  revert first_pron.
  induction sentence_prons as [|word_prons l IH]; intros fp; simpl.
  - by rewrite app_nil_r.
  - rewrite IH. destruct word_prons as [|pron0 others]; simpl; [done|].
    by rewrite concat_foldl_add_phoneme, concat_app, <- app_assoc.
Qed.

(** Splitting the stress marks off loses and adds nothing: the code points
    of the symbols picked for a sentence, read in order, are the code
    points of the phonemes of the first pronunciations of its words; the
    closed sequence of a sentence that has phonemes adds to them the code
    points of one or two major breaks. *)
Theorem stress_split_keeps_the_code_points
    (sentence_prons : list (list (list str))) :
  let spoken := concat (concat (omap head sentence_prons)) in
  concat (pick_first_pron is_stress sentence_prons) = spoken
  ∧ (pick_first_pron is_stress sentence_prons ≠ [] →
     concat (sentence_phonemes is_stress BREAK_MAJOR sentence_prons)
     = spoken ++ BREAK_MAJOR
     ∨ concat (sentence_phonemes is_stress BREAK_MAJOR sentence_prons)
       = spoken ++ BREAK_MAJOR ++ BREAK_MAJOR).
Proof.
  intros spoken.
  assert (Hpick : concat (pick_first_pron is_stress sentence_prons) = spoken).
  { unfold pick_first_pron. by rewrite concat_foldl_add_word. }
  split; [done|]. intros Hkept.
  rewrite sentence_phonemes_kept by done. unfold end_sentence.
  case_decide.
  - left. rewrite concat_app, Hpick. simpl. by rewrite app_nil_r.
  - right. rewrite !concat_app, Hpick. simpl.
    by rewrite !app_nil_r, <- app_assoc.
Qed.

Lemma foldl_add_phoneme_skip_empty first_pron (pron : list str) :
  foldl (add_phoneme is_stress) first_pron (filter (λ ph, ph ≠ []) pron)
  = foldl (add_phoneme is_stress) first_pron pron.
Proof.
  revert first_pron. induction pron as [|ph pron IH]; intros fp; [done|].
  rewrite filter_cons. case_decide as Hph.
  - simpl. apply IH.
  - subst ph. simpl. apply IH.
Qed.

(** What the loop over the words never looks at: the pronunciations of a
    word after its first one, the words that have no pronunciation, and
    the empty phonemes of a pronunciation. *)
Theorem alternatives_and_empty_entries_are_ignored
    (sentence_prons : list (list (list str))) :
  pick_first_pron is_stress (take 1 <$> sentence_prons)
  = pick_first_pron is_stress sentence_prons
  ∧ pick_first_pron is_stress (filter (λ word_prons, word_prons ≠ [])
                                 sentence_prons)
    = pick_first_pron is_stress sentence_prons
  ∧ pick_first_pron is_stress
      ((λ word_prons : list (list str),
          filter (λ ph : str, ph ≠ []) <$> word_prons)
       <$> sentence_prons)
    = pick_first_pron is_stress sentence_prons.
Proof.
  unfold pick_first_pron. generalize (@nil str) as first_pron.
  induction sentence_prons as [|word_prons l IH]; intros fp; [done|].
  destruct (IH (add_word is_stress fp word_prons)) as (IH1 & IH2 & IH3).
  split_and!.
  - cbn [fmap list_fmap foldl]. rewrite <- IH1.
    by destruct word_prons.
  - rewrite filter_cons. case_decide as Hw.
    + cbn [foldl]. apply IH2.
    + subst word_prons. cbn [foldl add_word]. apply (IH fp).
  - cbn [fmap list_fmap foldl]. rewrite <- IH3.
    destruct word_prons as [|pron0 others]; [done|].
    cbn [fmap list_fmap add_word]. by rewrite foldl_add_phoneme_skip_empty.
Qed.
End PhonemeInvariants.

(** ** More on the encoder and on runs *)

(** Encoding a sequence made of two parts gives the ids of the first part
    followed by the ids of the second; when a symbol has no id, the
    [KeyError] is that of the first part if it has one, of the second
    otherwise. *)
Theorem encode_phonemes_app (phoneme_to_id : gmap str nat)
    (first second : list str) :
  encode_phonemes phoneme_to_id (first ++ second)
  = match encode_phonemes phoneme_to_id first with
    | inl e => inl e
    | inr ids1 =>
        match encode_phonemes phoneme_to_id second with
        | inl e => inl e
        | inr ids2 => inr (ids1 ++ ids2)
        end
    end.
Proof.
  induction first as [|p ps IH].
  - simpl. by destruct (encode_phonemes phoneme_to_id second).
  - cbn [app]. rewrite !encode_cons, IH.
    destruct (phoneme_to_id !! p); [|done].
    destruct (encode_phonemes phoneme_to_id ps); [done|].
    by destruct (encode_phonemes phoneme_to_id second).
Qed.

Section RunInvariants.
Context {Token Mels : Type}.
Context (is_stress : codepoint → bool) (BREAK_MAJOR : str).
Context (clock : nat → float).

Implicit Types (gruut_lang : @Language Token) (w : @world Token Mels).
Implicit Types (sentences : list (@Sentence Token)).

Lemma major_break_in_end_sentence (first_pron : list str) :
  BREAK_MAJOR ∈ end_sentence BREAK_MAJOR first_pron.
Proof.
  destruct (end_sentence_last_two BREAK_MAJOR first_pron) as [front ->].
  rewrite elem_of_app, !elem_of_cons. auto.
Qed.

Lemma major_break_in_utterance gruut_lang word_indexes sentences sentence :
  sentence ∈ sentences →
  first_pron_of is_stress gruut_lang word_indexes sentence ≠ [] →
  BREAK_MAJOR
  ∈ utterance_phonemes is_stress BREAK_MAJOR gruut_lang word_indexes sentences.
Proof.
  intros Hin Hkept.
  unfold utterance_phonemes. apply list_elem_of_In, in_concat.
  exists (sentence_phonemes is_stress BREAK_MAJOR
            (phonemize gruut_lang (tokens sentence) word_indexes)).
  split; apply list_elem_of_In.
  - apply list_elem_of_fmap. by exists sentence.
  - rewrite sentence_phonemes_kept by done. apply major_break_in_end_sentence.
Qed.

(** A language whose vocabulary has no id for the major break cannot
    speak: as soon as one sentence of the utterance has phonemes, the run
    ends with [KeyError] on a symbol that has no id. *)
Theorem missing_major_break_fails_every_utterance text gruut_lang
    (tts_model : @TextToSpeechModel Mels) (vocoder_model : @VocoderModel Mels)
    sample_rate number_converters disable_currency word_indexes w sentence :
  sentence
  ∈ tokenize gruut_lang text number_converters (negb disable_currency) →
  first_pron_of is_stress gruut_lang word_indexes sentence ≠ [] →
  vocabulary gruut_lang w !! BREAK_MAJOR = None →
  ∃ q, vocabulary gruut_lang w !! q = None
       ∧ (text_to_speech is_stress BREAK_MAJOR clock text gruut_lang
            tts_model vocoder_model sample_rate number_converters
            disable_currency word_indexes w).1
         = inl (KeyError q).
Proof.
  intros Hin Hkept Hnone.
  pose proof (major_break_in_utterance _ word_indexes _ _ Hin Hkept) as Hbreak.
  rewrite text_to_speech_run. unfold run_text_phonemes, run_sentences.
  set (text_phonemes := utterance_phonemes _ _ _ _ _) in *.
  pose proof (encode_spec (vocabulary gruut_lang w) text_phonemes) as Hspec.
  destruct (encode_phonemes (vocabulary gruut_lang w) text_phonemes)
    as [e|ids].
  - destruct Hspec as (known & q & rest & _ & _ & Hq & ->). by exists q.
  - rewrite Forall2_lookup in Hspec.
    apply list_elem_of_lookup_1 in Hbreak as [k Hk].
    specialize (Hspec k). rewrite Hk in Hspec. inversion Hspec. congruence.
Qed.

Lemma builds_phonemize_calls sentences :
  builds (phonemize_calls sentences : list (@event Token Mels)) = 0%nat.
Proof. by induction sentences. Qed.

Lemma builds_of_a_run text gruut_lang (tts_model : @TextToSpeechModel Mels)
    (vocoder_model : @VocoderModel Mels) sample_rate number_converters
    disable_currency word_indexes w :
  builds (trace (text_to_speech is_stress BREAK_MAJOR clock text gruut_lang
                   tts_model vocoder_model sample_rate number_converters
                   disable_currency word_indexes w).2)
  = (builds (trace w) + builds (vocabulary_events gruut_lang w))%nat.
Proof.
  rewrite text_to_speech_run.
  destruct (encode_phonemes _ _) as [e|phoneme_ids]; [|cbn zeta;
    destruct (real_time_factor _ _ _)]; cbn [snd trace];
    unfold events_before_encoding;
    rewrite !builds_app, builds_phonemize_calls; cbn; lia.
Qed.

(** Two calls of [text_to_speech] for the same language, one after the
    other and whatever their texts, models and flags: the second works
    with the vocabulary of the first and does not ask for the inventory,
    also when the first call ended with an exception; the two calls
    together ask for it at most once. *)
Theorem second_run_builds_no_vocabulary gruut_lang
    text1 (tts_model1 : @TextToSpeechModel Mels)
    (vocoder_model1 : @VocoderModel Mels) sample_rate1 number_converters1
    disable_currency1 word_indexes1
    text2 (tts_model2 : @TextToSpeechModel Mels)
    (vocoder_model2 : @VocoderModel Mels) sample_rate2 number_converters2
    disable_currency2 word_indexes2 w :
  let w1 :=
    (text_to_speech is_stress BREAK_MAJOR clock text1 gruut_lang tts_model1
       vocoder_model1 sample_rate1 number_converters1 disable_currency1
       word_indexes1 w).2 in
  let w2 :=
    (text_to_speech is_stress BREAK_MAJOR clock text2 gruut_lang tts_model2
       vocoder_model2 sample_rate2 number_converters2 disable_currency2
       word_indexes2 w1).2 in
  vocabulary gruut_lang w1 = vocabulary gruut_lang w
  ∧ builds (trace w2) = builds (trace w1)
  ∧ (builds (trace w2) ≤ builds (trace w) + 1)%nat.
Proof.
  intros w1 w2.
  assert (Hattr : attrs w1 !! lang_id gruut_lang
                  = Some (vocabulary gruut_lang w)).
  { unfold w1. rewrite text_to_speech_keeps_vocabulary.
    by rewrite lookup_insert_eq. }
  assert (H2 : builds (trace w2) = builds (trace w1)).
  { unfold w2. rewrite builds_of_a_run, builds_vocabulary_events, Hattr. lia. }
  split_and!; [|done|].
  - unfold vocabulary at 1. by rewrite Hattr.
  - rewrite H2. unfold w1.
    rewrite builds_of_a_run, builds_vocabulary_events.
    destruct (attrs w !! lang_id gruut_lang); lia.
Qed.
End RunInvariants.

(** ** The command line: ids, file names *)

Section MainStrings.
Import Main.

Lemma startswith_spec (s prefix : str) :
  startswith s prefix = true ↔ ∃ rest, s = prefix ++ rest.
Proof.
  revert s. induction prefix as [|c prefix IH]; intros s.
  - split; [by exists s|by destruct s].
  - destruct s as [|d s]; simpl.
    + split; [done|]. by intros [rest ?].
    + rewrite andb_true_iff, bool_decide_eq_true, IH. split.
      * intros [-> [rest ->]]. by exists rest.
      * intros [rest [= -> ->]]. split; [done|]. by exists rest.
Qed.

Lemma partition_first_Some (sep s before after : str) :
  partition_first sep s = Some (before, after) →
  s = before ++ sep ++ after
  ∧ ∀ before' after', s = before' ++ sep ++ after' →
      (length before ≤ length before')%nat.
Proof.
  revert before. induction s as [|c s IH]; intros before.
  - cbn [partition_first]. destruct (startswith [] sep) eqn:Hs; [|done].
    intros [= <- <-]. apply startswith_spec in Hs as [rest Hs].
    symmetry in Hs. apply app_eq_nil in Hs as [-> ->].
    split; [done|]. simpl. lia.
  - cbn [partition_first]. destruct (startswith (c :: s) sep) eqn:Hs.
    + intros [= <- <-]. apply startswith_spec in Hs as [rest Hs].
      split; [|simpl; lia]. rewrite Hs at 1. simpl. f_equal.
      by rewrite Hs, drop_app_length.
    + destruct (partition_first sep s) as [[b a]|] eqn:Hp; [|done].
      intros [= <- <-]. destruct (IH b eq_refl) as [-> Hmin].
      split; [done|]. intros before' after' Heq.
      destruct before' as [|c' before'].
      * exfalso. assert (startswith (c :: b ++ sep ++ a) sep = true); [|congruence].
        apply startswith_spec. by exists after'.
      * injection Heq as -> Heq. simpl. apply le_n_S. by eapply Hmin.
Qed.

Lemma partition_first_None (sep s : str) :
  partition_first sep s = None →
  ∀ before after, s ≠ before ++ sep ++ after.
Proof.
  induction s as [|c s IH].
  - cbn [partition_first]. destruct (startswith [] sep) eqn:Hs; [done|].
    intros _ before after Heq.
    assert (startswith [] sep = true); [|congruence].
    apply startswith_spec. symmetry in Heq.
    apply app_eq_nil in Heq as [_ Heq]. apply app_eq_nil in Heq as [-> _].
    by exists [].
  - cbn [partition_first]. destruct (startswith (c :: s) sep) eqn:Hs; [done|].
    destruct (partition_first sep s) as [[b a]|] eqn:Hp; [done|].
    intros _ before after Heq. destruct before as [|c' before].
    + assert (startswith (c :: s) sep = true); [|congruence].
      apply startswith_spec. by exists after.
    + injection Heq as -> Heq. by eapply IH.
Qed.

Lemma split_id_inr (id_delimiter line line_id text : str) :
  split_id id_delimiter line = inr (line_id, text) →
  line = line_id ++ id_delimiter ++ text.
Proof.
  unfold split_id. destruct id_delimiter as [|d ds]; [done|].
  destruct (partition_first _ _) as [[a b]|] eqn:Hp; [|done].
  intros [= <- <-]. by apply partition_first_Some in Hp as [? _].
Qed.

(** Line 220: the id of a line is what precedes the leftmost delimiter
    and the text is all that follows it, later delimiters included; a line
    without the delimiter, or an empty delimiter, raises [ValueError]. *)
Theorem id_is_what_precedes_the_first_delimiter (id_delimiter line : str) :
  match split_id id_delimiter line with
  | inr (line_id, text) =>
      id_delimiter ≠ []
      ∧ line = line_id ++ id_delimiter ++ text
      ∧ ∀ line_id' text', line = line_id' ++ id_delimiter ++ text' →
          (length line_id ≤ length line_id')%nat
  | inl e =>
      (id_delimiter = [] ∧ e = ValueError_empty_separator)
      ∨ (id_delimiter ≠ [] ∧ e = ValueError_not_enough_values
         ∧ ∀ line_id text, line ≠ line_id ++ id_delimiter ++ text)
  end.
Proof.
  unfold split_id. destruct id_delimiter as [|d ds]; [by left|].
  destruct (partition_first (d :: ds) line) as [[line_id text]|] eqn:Hp.
  - split; [done|]. by apply partition_first_Some.
  - right. split_and!; [done..|]. by apply partition_first_None.
Qed.

(** *** File names from the text *)

Lemma deleted_spec (c : codepoint) :
  c ∈ remove_char underscore punctuation
  ↔ c ∈ punctuation ∧ c ≠ underscore.
Proof. unfold remove_char. rewrite list_elem_of_filter. tauto. Qed.

Lemma space_not_punctuation : space ∉ punctuation.
Proof. apply (bool_decide_unpack (space ∉ punctuation)). by vm_compute. Qed.

Lemma text_file_name_cons (c : codepoint) (text : str) :
  text_file_name (c :: text)
  = (if decide (c ∈ punctuation ∧ c ≠ underscore) then []
     else [if decide (c = space) then underscore else c])
    ++ text_file_name text.
Proof.
  unfold text_file_name, delete_chars, replace_char.
  rewrite fmap_cons, filter_cons. case_bool_decide as Hc.
  - subst c.
    rewrite (decide_True (P := underscore ∉ _)).
    2:{ rewrite deleted_spec. intros [_ H]. by apply H. }
    rewrite (decide_False (P := space ∈ punctuation ∧ _)).
    2:{ intros [H _]. by apply space_not_punctuation. }
    by rewrite decide_True.
  - destruct (decide (c ∈ punctuation ∧ c ≠ underscore)) as [Hd|Hd].
    + rewrite decide_False; [done|]. intros H. apply H. by apply deleted_spec.
    + rewrite decide_True by (by rewrite deleted_spec).
      by rewrite decide_False.
Qed.

Lemma text_file_name_app (a b : str) :
  text_file_name (a ++ b) = text_file_name a ++ text_file_name b.
Proof.
  induction a as [|c a IH]; [done|].
  cbn [app]. by rewrite !text_file_name_cons, IH, (assoc_L (++)).
Qed.

Lemma text_file_name_nil (text : str) :
  Forall (λ c, c ∈ punctuation ∧ c ≠ underscore) text →
  text_file_name text = [].
Proof.
  induction 1 as [|c text Hc _ IH]; [done|].
  by rewrite text_file_name_cons, decide_True.
Qed.

(** Lines 280-283: the file name made from a text has no space and no
    punctuation but the underscore, and is not longer than the text. It
    is empty exactly when the text is made only of punctuation other than
    the underscore. Texts that differ only by a punctuation character
    other than the underscore, or by a space written as an underscore,
    have the same file name. *)
Theorem text_file_name_drops_punctuation (text : str) :
  Forall (λ c, c ≠ space ∧ (c ∈ punctuation → c = underscore))
    (text_file_name text)
  ∧ (length (text_file_name text) ≤ length text)%nat
  ∧ (text_file_name text = []
     ↔ Forall (λ c, c ∈ punctuation ∧ c ≠ underscore) text)
  ∧ (∀ before c after,
       c ∈ punctuation → c ≠ underscore →
       text_file_name (before ++ [c] ++ after)
       = text_file_name (before ++ after))
  ∧ (∀ before after,
       text_file_name (before ++ [space] ++ after)
       = text_file_name (before ++ [underscore] ++ after)).
Proof.
  split_and!.
  - induction text as [|c text IH]; [by constructor|].
    rewrite text_file_name_cons.
    destruct (decide (c ∈ punctuation ∧ c ≠ underscore)) as [Hd|Hd]; [done|].
    cbn [app]. constructor; [|done].
    destruct (decide (c = space)) as [->|Hs]; [done|].
    split; [done|]. intros Hp. destruct (decide (c = underscore)); tauto.
  - induction text as [|c text IH]; [done|].
    rewrite text_file_name_cons.
    destruct (decide (c ∈ punctuation ∧ c ≠ underscore)); simpl; lia.
  - induction text as [|c text IH]; [done|].
    rewrite text_file_name_cons, Forall_cons, <-IH.
    destruct (decide (c ∈ punctuation ∧ c ≠ underscore)); simpl.
    + split; [by intros ->|by intros [_ ?]].
    + split; [done|by intros [? _]].
  - intros before c after Hp Hu. rewrite !text_file_name_app.
    by rewrite (text_file_name_cons c []), decide_True.
  - intros before after. rewrite !text_file_name_app. by f_equal.
Qed.
End MainStrings.

(** ** The command line: where the audio goes *)

Section MainLoop.
Import Main.
Context {Path : Type}.
Context (larynx_text_to_speech : str → list (str * list Z)).
Context (time_str : nat → str).
Context (play_command : list str).

Local Abbreviation audio_body := (@audio_body Path time_str play_command).
Local Abbreviation line_body :=
  (@line_body Path larynx_text_to_speech time_str play_command).
Local Abbreviation speak :=
  (@speak Path larynx_text_to_speech time_str play_command).
Local Abbreviation audios_of := (audios_of larynx_text_to_speech).
Local Abbreviation id_outputs := (@id_outputs Path play_command).

Implicit Types (args : @Args Path) (s : @state Path).
Implicit Types (texts : list str) (audio : list Z).

Lemma Run_bind_run {A B : Type} (m : @Run Path A) (f : A → @Run Path B) s :
  (m ≫= f) s
  = match m s with
    | (inl e, s') => (inl e, s')
    | (inr x, s') => f x s'
    end.
Proof. done. Qed.

Lemma snd_imap_pair {A : Type} (l : list A) (k : nat) :
  snd <$> imap (λ i x, (k + i, x)%nat) l = l.
Proof.
  revert k. induction l as [|x l IH]; intros k; [done|].
  cbn [imap fmap list_fmap]. f_equal.
  rewrite <-(IH (S k)) at 2. f_equal. apply imap_ext. intros i y _. simpl.
  f_equal. lia.
Qed.

Lemma snd_enumerate {A : Type} (l : list A) : snd <$> enumerate l = l.
Proof. apply (snd_imap_pair l 0). Qed.

(** A run of the loops when each audio has one effect on the state and
    neither raises nor changes [text_id]. *)
Section OneEffect.
Context (args : @Args Path) (effect : list Z → @state Path → @state Path).
Hypothesis audio_body_effect : ∀ line_id text_id text_idx text audio s,
  audio_body args line_id text_id (text_idx, (text, audio)) s
  = (inr text_id, effect audio s).

Lemma for_each_audio_effect line_id text_id
    (items : list (nat * (str * list Z))) s :
  for_each (audio_body args line_id) text_id items s
  = (inr text_id,
     foldl (λ s audio, effect audio s) s (snd <$> (snd <$> items))).
Proof using audio_body_effect.
  revert s. induction items as [|[text_idx [text audio]] items IH]; intros s.
  - done.
  - cbn [for_each]. rewrite Run_bind_run, audio_body_effect. apply IH.
Qed.

Lemma for_each_line_effect texts s :
  for_each (line_body args) () texts s
  = let '(read, e) := read_lines args texts in
    (result_of e, foldl (λ s audio, effect audio s) s (audios_of read)).
Proof using audio_body_effect.
  revert s. induction texts as [|line texts IH]; intros s; [done|].
  cbn [for_each read_lines]. rewrite Run_bind_run. unfold line_body at 1.
  destruct (strip line) as [|c line'] eqn:Hline.
  { apply IH. }
  assert (Hspeak : ∀ line_id text (s0 : @state Path),
    (for_each (audio_body args line_id) [] (enumerate (larynx_text_to_speech text));; mret ()) s0
    = (inr (), foldl (λ s audio, effect audio s) s0
                 (snd <$> larynx_text_to_speech text))).
  { intros line_id text s0. rewrite Run_bind_run, for_each_audio_effect.
    by rewrite snd_enumerate. }
  destruct (output_naming args).
  - rewrite Run_bind_run. cbn [mret Run_ret]. rewrite Hspeak, IH.
    destruct (read_lines args texts) as [read e].
    unfold Main.audios_of. by rewrite fmap_cons, concat_cons, foldl_app.
  - rewrite Run_bind_run. cbn [mret Run_ret]. rewrite Hspeak, IH.
    destruct (read_lines args texts) as [read e].
    unfold Main.audios_of. by rewrite fmap_cons, concat_cons, foldl_app.
  - rewrite Run_bind_run. unfold lift.
    destruct (split_id (id_delimiter args) (c :: line')) as [e|[line_id text]].
    + done.
    + rewrite Hspeak, IH. destruct (read_lines args texts) as [read e].
      unfold Main.audios_of. by rewrite fmap_cons, concat_cons, foldl_app.
Qed.
End OneEffect.

Lemma foldl_put (f : list Z → @output Path) (audios : list (list Z)) s :
  foldl (λ s audio,
           State (all_audios s) (time_reads s) (outputs s ++ [f audio]))
    s audios
  = State (all_audios s) (time_reads s) (outputs s ++ (f <$> audios)).
Proof.
  revert s. induction audios as [|audio audios IH]; intros s.
  - simpl. rewrite app_nil_r. by destruct s.
  - cbn [foldl]. rewrite IH. cbn. by rewrite <-(assoc_L (++)).
Qed.

Lemma foldl_append (audios : list (list Z)) s :
  foldl (λ s audio,
           @State Path (all_audios s ++ [audio]) (time_reads s) (outputs s))
    s audios
  = State (all_audios s ++ audios) (time_reads s) (outputs s).
Proof.
  revert s. induction audios as [|audio audios IH]; intros s.
  - simpl. rewrite app_nil_r. by destruct s.
  - cbn [foldl]. rewrite IH. cbn. by rewrite <-(assoc_L (++)).
Qed.

Lemma read_lines_ext args args' texts :
  output_naming args = output_naming args' →
  id_delimiter args = id_delimiter args' →
  read_lines args texts = read_lines args' texts.
Proof.
  intros Hn Hd. induction texts as [|line texts IH]; [done|].
  cbn [read_lines]. by rewrite Hn, Hd, IH.
Qed.

Lemma read_lines_apply_isatty stdout_isatty args texts :
  read_lines (apply_isatty stdout_isatty args) texts = read_lines args texts.
Proof.
  apply read_lines_ext; unfold apply_isatty; by destruct (_ && _).
Qed.

Lemma stream_raw_apply args stdout_isatty :
  stream_raw (apply_isatty stdout_isatty (apply_csv args)) = stream_raw args.
Proof.
  unfold apply_isatty, apply_csv.
  destruct (csv args); cbn; by destruct (_ && _).
Qed.

Lemma output_dir_apply args stdout_isatty :
  output_dir (apply_isatty stdout_isatty (apply_csv args)) = output_dir args.
Proof.
  unfold apply_isatty, apply_csv.
  destruct (csv args); cbn; by destruct (_ && _).
Qed.

Lemma sample_rate_apply args stdout_isatty :
  sample_rate (apply_isatty stdout_isatty (apply_csv args)) = sample_rate args.
Proof.
  unfold apply_isatty, apply_csv.
  destruct (csv args); cbn; by destruct (_ && _).
Qed.

Lemma interactive_apply args stdout_isatty :
  interactive (apply_isatty stdout_isatty (apply_csv args))
  = interactive args
    || stdout_isatty && negb (bool_decide (is_Some (output_dir args)))
       && negb (stream_raw args).
Proof.
  unfold apply_isatty, apply_csv.
  destruct (csv args); cbn; destruct (_ && _); cbn;
    by rewrite ?orb_true_r, ?orb_false_r.
Qed.

Lemma speak_run stdout_isatty args texts s :
  speak stdout_isatty args texts s
  = let args' := apply_isatty stdout_isatty (apply_csv args) in
    match for_each (line_body args') () texts s with
    | (inl e, s') => (inl e, s')
    | (inr _, s') => write_combined args' s'
    end.
Proof. unfold Main.speak. cbn zeta. by rewrite Run_bind_run. Qed.

(** With [--stream-raw] the audio of every sentence is written to
    standard output as raw samples, in order, and nothing else leaves the
    program: nothing is played and no file is written, whatever the other
    options; a line that cannot be split ends the run after the audio of
    the lines before it. *)
Theorem raw_stream_is_all_that_leaves stdout_isatty args texts :
  stream_raw args = true →
  speak stdout_isatty args texts initial
  = let '(read, e) := read_lines (apply_csv args) texts in
    (result_of e, State [] 0 (Stdout_raw <$> audios_of read)).
Proof.
  intros Hraw. rewrite speak_run. cbn zeta.
  rewrite (for_each_line_effect _
             (λ audio s, State (all_audios s) (time_reads s)
                           (outputs s ++ [Stdout_raw audio]))).
  2:{ intros. unfold Main.audio_body. by rewrite stream_raw_apply, Hraw. }
  rewrite read_lines_apply_isatty.
  destruct (read_lines (apply_csv args) texts) as [read e].
  rewrite foldl_put. by destruct e.
Qed.

(** With standard output not a terminal and no option that sends the
    audio elsewhere, nothing leaves the program while the lines are read;
    at the end one WAV file made of all the audios, in order, is written
    to standard output, if there is at least one audio. When a line
    cannot be split the run ends with nothing written at all. *)
Theorem piped_audio_is_written_once_at_the_end args texts :
  stream_raw args = false →
  interactive args = false →
  output_dir args = None →
  speak false args texts initial
  = let '(read, e) := read_lines (apply_csv args) texts in
    (result_of e,
     State (audios_of read) 0
       match e, audios_of read with
       | None, _ :: _ =>
           [Stdout_wav (sample_rate args) (concat (audios_of read))]
       | _, _ => []
       end).
Proof.
  intros Hraw Hint Hdir. rewrite speak_run. cbn zeta.
  rewrite (for_each_line_effect _
             (λ audio s, State (all_audios s ++ [audio]) (time_reads s)
                           (outputs s))).
  2:{ intros. unfold Main.audio_body.
      by rewrite stream_raw_apply, Hraw, interactive_apply, Hint,
        output_dir_apply, Hdir. }
  rewrite read_lines_apply_isatty.
  destruct (read_lines (apply_csv args) texts) as [read e].
  rewrite foldl_append. destruct e as [e|]; [done|].
  cbn [result_of initial all_audios app]. unfold write_combined.
  cbn [all_audios]. destruct (audios_of read) as [|audio audios]; [done|].
  by rewrite sample_rate_apply.
Qed.

(** Without [--stream-raw] and without an output directory, with
    standard output on a terminal or with [--interactive], every audio is
    handed to the play command as a WAV file, in order, and nothing is
    written to standard output or to a file. *)
Theorem terminal_audio_is_played_not_written stdout_isatty args texts :
  stream_raw args = false →
  output_dir args = None →
  stdout_isatty || interactive args = true →
  speak stdout_isatty args texts initial
  = let '(read, e) := read_lines (apply_csv args) texts in
    (result_of e,
     State [] 0 (Play_wav play_command (sample_rate args) <$> audios_of read)).
Proof.
  intros Hraw Hdir Hint. rewrite speak_run. cbn zeta.
  rewrite (for_each_line_effect _
             (λ audio s, State (all_audios s) (time_reads s)
                           (outputs s
                            ++ [Play_wav play_command (sample_rate args)
                                  audio]))).
  2:{ intros. unfold Main.audio_body.
      rewrite stream_raw_apply, Hraw, interactive_apply, output_dir_apply,
        Hdir, Hraw, sample_rate_apply.
      destruct stdout_isatty, (interactive args); done. }
  rewrite read_lines_apply_isatty.
  destruct (read_lines (apply_csv args) texts) as [read e].
  rewrite foldl_put. by destruct e.
Qed.

Lemma read_lines_without_delimiter args texts line :
  output_naming args = ID →
  id_delimiter args ≠ [] →
  line ∈ texts →
  strip line ≠ [] →
  (∀ line_id text, strip line ≠ line_id ++ id_delimiter args ++ text) →
  ∃ read, read_lines args texts = (read, Some ValueError_not_enough_values).
Proof.
  intros Hnaming Hdelim Hin Hline Hsplit.
  induction texts as [|line' texts IH]; [by apply elem_of_nil in Hin|].
  cbn [read_lines]. rewrite Hnaming.
  assert (Herr : ∀ l, split_id (id_delimiter args) l
                      ≠ inl ValueError_empty_separator).
  { intros l. unfold split_id. destruct (id_delimiter args); [done|].
    by destruct (partition_first _ _). }
  assert (Hexn : ∀ l e, split_id (id_delimiter args) l = inl e →
                        e = ValueError_not_enough_values).
  { intros l e He. destruct e; [by apply Herr in He|done|].
    unfold split_id in He. destruct (id_delimiter args); [done|].
    by destruct (partition_first _ _). }
  apply elem_of_cons in Hin as [<-|Hin].
  - destruct (strip line) as [|c l] eqn:Hl; [done|].
    destruct (split_id (id_delimiter args) (c :: l)) as [e|[line_id text]] eqn:Hs.
    + apply Hexn in Hs as ->. by eexists.
    + apply split_id_inr in Hs. by apply Hsplit in Hs.
  - destruct (IH Hin) as [read Hread]. destruct (strip line') as [|c l].
    + by exists read.
    + destruct (split_id (id_delimiter args) (c :: l)) as [e|p] eqn:Hs.
      * apply Hexn in Hs as ->. by eexists.
      * rewrite Hread. by eexists.
Qed.

(** Audio left for standard output is lost when a later line has no
    delimiter: with ids read from the lines and the output not a
    terminal, one line without the delimiter ends the run with
    [ValueError], and nothing has been written, whatever the other lines
    are. *)
Theorem line_without_delimiter_loses_all_audio args texts line :
  stream_raw args = false →
  interactive args = false →
  output_dir args = None →
  csv args = true ∨ output_naming args = ID →
  id_delimiter args ≠ [] →
  line ∈ texts →
  strip line ≠ [] →
  (∀ line_id text, strip line ≠ line_id ++ id_delimiter args ++ text) →
  let run := speak false args texts initial in
  run.1 = inl ValueError_not_enough_values ∧ outputs run.2 = [].
Proof.
  intros Hraw Hint Hdir Hid Hdelim Hin Hline Hsplit run. unfold run.
  rewrite speak_run. cbn zeta.
  rewrite (for_each_line_effect _
             (λ audio s, State (all_audios s ++ [audio]) (time_reads s)
                           (outputs s))).
  2:{ intros. unfold Main.audio_body.
      by rewrite stream_raw_apply, Hraw, interactive_apply, Hint,
        output_dir_apply, Hdir. }
  rewrite read_lines_apply_isatty.
  destruct (read_lines_without_delimiter (apply_csv args) texts line)
    as [read ->]; try done.
  - unfold apply_csv. destruct Hid as [Hcsv|Hnaming]; [by rewrite Hcsv|].
    by destruct (csv args).
  - unfold apply_csv. by destruct (csv args).
  - unfold apply_csv. by destruct (csv args).
  - by rewrite foldl_append.
Qed.

(** *** File names from the ids *)

Lemma digits_inj (d d' : Decimal.uint) : digits d = digits d' → d = d'.
Proof.
  revert d'. induction d; intros d'; destruct d'; simpl; try done;
    intros [= H]; f_equal; auto.
Qed.

Lemma str_of_nat_inj (n n' : nat) : str_of_nat n = str_of_nat n' → n = n'.
Proof.
  intros H. by apply DecimalNat.Unsigned.to_uint_inj, digits_inj.
Qed.

Lemma id_file_name_inj (line_id : str) (i j : nat) :
  id_file_name line_id i = id_file_name line_id j → i = j.
Proof.
  unfold id_file_name. destruct i as [|i], j as [|j]; [done| | |].
  - intros H. apply (f_equal length) in H. rewrite !length_app in H.
    simpl in H. lia.
  - intros H. apply (f_equal length) in H. rewrite !length_app in H.
    simpl in H. lia.
  - intros H. apply app_inv_head in H. injection H as H.
    apply str_of_nat_inj in H. lia.
Qed.

Lemma id_file_name_not_empty (line_id : str) (text_idx : nat) :
  line_id ≠ [] → id_file_name line_id text_idx ≠ [].
Proof.
  intros Hid. destruct text_idx; [done|]. simpl.
  intros H. by apply app_eq_nil in H as [? _].
Qed.

Lemma audio_body_id args dir line_id text_id (text_idx : nat) text audio s :
  stream_raw args = false →
  output_dir args = Some dir →
  output_naming args = ID →
  line_id ≠ [] →
  (text_id = [] ↔ text_idx = 0%nat) →
  audio_body args line_id text_id (text_idx, (text, audio)) s
  = (inr (id_file_name line_id text_idx),
     State (all_audios s) (time_reads s)
       (outputs s ++ id_outputs args dir line_id text_idx audio)).
Proof.
  intros Hraw Hdir Hnaming Hid Hidx.
  assert (Hname : match text_id with
                  | [] => line_id
                  | _ => line_id ++ [underscore] ++ str_of_nat (text_idx + 1)
                  end = id_file_name line_id text_idx).
  { destruct text_id as [|c text_id], text_idx as [|text_idx]; try done.
    - by destruct Hidx as [Hidx _]; specialize (Hidx eq_refl).
    - by destruct Hidx as [_ Hidx]; specialize (Hidx eq_refl). }
  pose proof (id_file_name_not_empty line_id text_idx Hid) as Hne.
  unfold Main.audio_body, Main.id_outputs, name_file, when.
  rewrite Hraw, Hdir, Hnaming, bool_decide_true, orb_true_r by done.
  rewrite !Run_bind_run. cbn [mret Run_ret]. rewrite Hname.
  destruct (id_file_name line_id text_idx) as [|c name]; [done|].
  destruct (interactive args);
    unfold mbind, Run_bind, mret, Run_ret, put; cbn;
    by rewrite <-?(assoc_L (++)).
Qed.

Lemma for_each_audio_id args dir line_id text_id (k : nat)
    (items : list (str * list Z)) s :
  stream_raw args = false →
  output_dir args = Some dir →
  output_naming args = ID →
  line_id ≠ [] →
  (text_id = [] ↔ k = 0%nat) →
  ∃ text_id',
    for_each (audio_body args line_id) text_id
      (imap (λ i item, (k + i, item)%nat) items) s
    = (inr text_id',
       State (all_audios s) (time_reads s)
         (outputs s
          ++ concat (imap (λ i item,
                             id_outputs args dir line_id (k + i) item.2)
                       items))).
Proof.
  intros Hraw Hdir Hnaming Hid. revert k text_id s.
  induction items as [|[text audio] items IH]; intros k text_id s Hk.
  - exists text_id. cbn. rewrite app_nil_r. by destruct s.
  - cbn [imap for_each]. rewrite Run_bind_run, Nat.add_0_r.
    rewrite (audio_body_id _ dir) by done.
    destruct (IH (S k) (id_file_name line_id k)
                (State (all_audios s) (time_reads s)
                   (outputs s ++ id_outputs args dir line_id k audio)))
      as [text_id' Hrun].
    { split; [|lia]. intros H. by apply id_file_name_not_empty in H. }
    exists text_id'.
    rewrite (imap_ext ((λ i (item : str * list Z), ((k + i)%nat, item)) ∘ S)
               (λ i item, (S k + i, item)%nat) items).
    2:{ intros i x _. simpl. f_equal. lia. }
    rewrite Hrun. cbn [all_audios time_reads outputs concat].
    rewrite <-(assoc_L (++)). cbn [snd].
    rewrite (imap_ext
               ((λ i (item : str * list Z),
                   id_outputs args dir line_id (k + i) item.2) ∘ S)
               (λ i item, id_outputs args dir line_id (S k + i) item.2)
               items); [done|].
    intros i x _. simpl. f_equal. lia.
Qed.

(** Without [--stream-raw], with an output directory and names made
    from ids, the sentences of a line with a non-empty id go to the files
    [id.wav], [id_2.wav], [id_3.wav] and so on, each after being played
    when the run is interactive; these names are pairwise distinct, and
    nothing goes to standard output. *)
Theorem id_naming_numbers_the_sentences_of_a_line args dir line_id
    (items : list (str * list Z)) s :
  stream_raw args = false →
  output_dir args = Some dir →
  output_naming args = ID →
  line_id ≠ [] →
  (∃ text_id,
     for_each (audio_body args line_id) [] (enumerate items) s
     = (inr text_id,
        State (all_audios s) (time_reads s)
          (outputs s
           ++ concat (imap (λ text_idx item,
                              id_outputs args dir line_id text_idx item.2)
                        items))))
  ∧ NoDup (id_file_name line_id <$> seq 0 (length items)).
Proof.
  intros Hraw Hdir Hnaming Hid. split.
  - by apply (for_each_audio_id args dir line_id [] 0 items s).
  - apply NoDup_fmap_2; [|apply NoDup_seq].
    intros i j. apply id_file_name_inj.
Qed.

(** Without [--stream-raw] and with an output directory, a sentence for
    which no file name can be made stops the run with [AssertionError],
    after it has been played when the run is interactive: in [TEXT]
    naming a text made only of punctuation other than the underscore, in
    [ID] naming the first sentence of a line whose id is empty. *)
Theorem sentence_without_file_name_stops_the_run args dir line_id text_id
    (text_idx : nat) text audio s :
  stream_raw args = false →
  output_dir args = Some dir →
  (output_naming args = TEXT
   ∧ Forall (λ c, c ∈ punctuation ∧ c ≠ underscore) text)
  ∨ (output_naming args = ID ∧ line_id = [] ∧ text_id = []) →
  audio_body args line_id text_id (text_idx, (text, audio)) s
  = (inl (AssertionError text),
     State (all_audios s) (time_reads s)
       (outputs s
        ++ if interactive args
           then [Play_wav play_command (sample_rate args) audio]
           else [])).
Proof.
  intros Hraw Hdir Hname.
  unfold Main.audio_body, name_file, when.
  rewrite Hraw, Hdir, bool_decide_true, orb_true_r by done.
  destruct Hname as [[-> Hpunct]|(-> & -> & ->)].
  - apply text_file_name_nil in Hpunct.
    rewrite !Run_bind_run. cbn [mret Run_ret]. rewrite Hpunct.
    destruct (interactive args); cbn; [done|].
    rewrite app_nil_r. by destruct s.
  - rewrite !Run_bind_run. cbn [mret Run_ret].
    destruct (interactive args); cbn; [done|].
    rewrite app_nil_r. by destruct s.
Qed.
End MainLoop.

(** ** The command line: choosing the models *)

Section MainArgs.
Import Main.

Lemma rfind_spec (c : codepoint) (s : str) :
  (rfind c s = -1 ∧ c ∉ s)
  ∨ ((0 <= rfind c s)
     ∧ ∃ before after,
         s = before ++ [c] ++ after
         ∧ Z.of_nat (length before) = rfind c s
         ∧ c ∉ after).
Proof.
  induction s as [|d s IH].
  - left. split; [done|]. apply not_elem_of_nil.
  - cbn [rfind]. destruct IH as [[Hr Hnot]|(Hr & before & after & Hs & Hlen & Hnot)].
    + rewrite Hr. rewrite decide_False by lia. case_bool_decide as Hd.
      * right. split; [lia|]. exists [], s. subst d. done.
      * left. split; [done|]. rewrite not_elem_of_cons. split; [congruence|done].
    + rewrite decide_True by done. right. split; [lia|].
      exists (d :: before), after. split_and!; [by rewrite Hs| |done].
      cbn [length]. lia.
Qed.

(** Line 657: the model type of a voice is what follows its last hyphen,
    so it has no hyphen itself; a voice name without a hyphen is its own
    model type. *)
Theorem tts_model_type_follows_the_last_hyphen (voice : str) :
  let tts_model_type := tts_model_type_of_voice voice in
  (hyphen ∉ tts_model_type)
  ∧ (((hyphen ∉ voice) ∧ tts_model_type = voice)
     ∨ (∃ name, voice = name ++ [hyphen] ++ tts_model_type)).
Proof.
  unfold tts_model_type_of_voice.
  destruct (rfind_spec hyphen voice)
    as [[Hr Hnot]|(Hr & before & after & Hs & Hlen & Hnot)].
  - rewrite Hr. simpl. split; [done|]. by left.
  - assert (Hdrop : drop (Z.to_nat (rfind hyphen voice + 1)) voice = after).
    { rewrite <-Hlen.
      replace (Z.to_nat (Z.of_nat (length before) + 1))
        with (length (before ++ [hyphen])) by (rewrite length_app; simpl; lia).
      by rewrite Hs, (assoc_L (++) before [hyphen] after), drop_app_length. }
    rewrite Hdrop. split; [done|]. right. by exists before.
Qed.

Lemma tts_model_loop_Some (getattr : str → option str)
    (tts_model_args : list str) (tts_model : str * str) :
  tts_model_loop getattr tts_model_args (Some tts_model)
  = match filter (λ arg, truthy (getattr arg)) tts_model_args with
    | [] => inr (Some tts_model)
    | _ => inl ValueError_only_one_tts_model
    end.
Proof.
  induction tts_model_args as [|arg rest IH]; [done|].
  cbn [tts_model_loop]. rewrite filter_cons.
  destruct (getattr arg) as [[|c value]|]; simpl; by rewrite ?IH.
Qed.

(** Lines 688-703: a run has exactly one text-to-speech model. With a
    voice and no model argument it is the model of the voice; without a
    voice and with one model argument it is that model; in both cases
    nothing is printed. With no model at all the voices are listed and
    the program exits with status 1, or ends with the exception of the
    listing when the listing raises; in every other case [ValueError] is
    raised. An argument whose value is the empty string counts as not
    given. *)
Theorem exactly_one_tts_model_is_accepted (getattr : str → option str)
    (tts_model_args : list str) (from_voice : option (str * str))
    (local_info : gmap (str * str) str)
    (vocoders_file voices_file : list str) :
  ensure_tts_model getattr tts_model_args from_voice local_info vocoders_file
    voices_file
  = match from_voice,
          filter (λ arg, truthy (getattr arg)) tts_model_args with
    | None, [] =>
        match list_voices_vocoders local_info vocoders_file voices_file with
        | inl e => (inl e, [])
        | inr printed => (inl (SystemExit 1), printed)
        end
    | Some tts_model, [] => (inr tts_model, [])
    | None, [arg] => (inr (arg, default [] (getattr arg)), [])
    | _, _ => (inl ValueError_only_one_tts_model, [])
    end.
Proof.
  unfold ensure_tts_model. destruct from_voice as [tts_model|].
  - rewrite tts_model_loop_Some. by destruct (filter _ _).
  - induction tts_model_args as [|arg rest IH]; [done|].
    cbn [tts_model_loop]. rewrite filter_cons.
    destruct (getattr arg) as [[|c value]|] eqn:Harg; simpl; [done| |done].
    rewrite tts_model_loop_Some. destruct (filter _ rest); [|done].
    by rewrite Harg.
Qed.

Section Vocoder.
Context {Path : Type}.
Context (joinpath : Path → str → Path).
Context (str_of_path : Path → str) (Path_of_str : str → Path) (cwd : Path).
Context (valid_voice_dir : Path → bool).
Context (download_voice : str → Path → str → Path).
Context (format_url : str → str → str).



End Vocoder.
End MainArgs.

(** ** The command line: the listing of voices and vocoders *)

Section MainListing.
Import Main.

Implicit Types (item : row) (items : list row) (col_widths : list nat).

Lemma lstrip_head (s : str) :
  match lstrip s with
  | [] => True
  | c :: _ => isspace c = false
  end.
Proof.
  induction s as [|c s IH]; [done|].
  cbn [lstrip]. destruct (isspace c) eqn:Hc; [done|]. by rewrite Hc.
Qed.

Lemma lstrip_snoc (s : str) (c : codepoint) :
  isspace c = false → ∃ s', lstrip (s ++ [c]) = s' ++ [c].
Proof.
  intros Hc. induction s as [|d s IH].
  - exists []. simpl. by rewrite Hc.
  - cbn [app lstrip]. destruct (isspace d); [done|]. by exists (d :: s).
Qed.

(** A line that is not blank starts, once stripped, with a character
    that is not white space. *)
Lemma strip_head (s : str) :
  match strip s with
  | [] => True
  | c :: _ => isspace c = false
  end.
Proof.
  unfold strip. pose proof (lstrip_head s) as Hhead.
  destruct (lstrip s) as [|c rest]; [done|].
  rewrite reverse_cons.
  destruct (lstrip_snoc (reverse rest) c Hhead) as [s' ->].
  by rewrite reverse_app.
Qed.

Lemma split_whitespace_from_piece (piece s : str) :
  piece ≠ [] → split_whitespace_from piece s ≠ [].
Proof.
  revert piece. induction s as [|c s IH]; intros piece Hpiece.
  - by destruct piece.
  - cbn [split_whitespace_from]. destruct (isspace c).
    + by destruct piece.
    + apply IH. by destruct piece.
Qed.

Lemma split_whitespace_strip (s : str) :
  strip s ≠ [] → split_whitespace (strip s) ≠ [].
Proof.
  intros Hs. pose proof (strip_head s) as Hhead.
  destruct (strip s) as [|c rest]; [done|].
  unfold split_whitespace. cbn [split_whitespace_from]. rewrite Hhead.
  by apply split_whitespace_from_piece.
Qed.

(** The type of a row is its first value. *)
Lemma vocoder_row_type local_info line item :
  vocoder_row local_info line = inr item → head (cells item) = Some vocoder_str.
Proof.
  unfold vocoder_row. destruct (reverse _) as [|name aliases]; [done|].
  by intros [= <-].
Qed.

Lemma voice_row_type local_info line item :
  voice_row local_info line = inr item → head (cells item) = Some voice_str.
Proof.
  unfold voice_row. destruct (reverse _) as [|download [|name aliases]]; [done..|].
  by intros [= <-].
Qed.

Lemma vocoder_row_strip local_info line :
  strip line ≠ [] → ∃ item, vocoder_row local_info (strip line) = inr item.
Proof.
  intros Hline. apply split_whitespace_strip in Hline.
  unfold vocoder_row.
  destruct (reverse (split_whitespace (strip line))) as [|name aliases] eqn:Hr.
  - apply (f_equal reverse) in Hr. by rewrite reverse_involutive in Hr.
  - by eexists.
Qed.

Lemma read_catalogue_inr (row_of_line : str → stop + row) lines items :
  read_catalogue row_of_line lines = inr items →
  length items = length (filter (λ line, strip line ≠ []) lines)
  ∧ Forall (λ item, ∃ line, row_of_line line = inr item) items.
Proof.
  revert items. induction lines as [|line lines IH]; intros items.
  - intros [= <-]. by split.
  - cbn [read_catalogue]. rewrite filter_cons.
    destruct (strip line) as [|c rest] eqn:Hline.
    { rewrite decide_False by (by intros []). apply IH. }
    rewrite decide_True by done.
    destruct (row_of_line (c :: rest)) as [e|item] eqn:Hrow; [done|].
    destruct (read_catalogue row_of_line lines) as [e|items']; [done|].
    intros [= <-]. destruct (IH items' eq_refl) as [Hlen Hall].
    split; [by rewrite !length_cons, Hlen|].
    constructor; [by eexists|done].
Qed.

Lemma read_catalogue_nil (row_of_line : str → stop + row) lines :
  read_catalogue row_of_line lines = inr [] →
  Forall (λ line, strip line = []) lines.
Proof.
  induction lines as [|line lines IH]; [by constructor|].
  cbn [read_catalogue]. destruct (strip line) as [|c rest] eqn:Hline.
  - intros H. constructor; [done|by apply IH].
  - destruct (row_of_line _); [done|]. by destruct (read_catalogue _ _).
Qed.

Lemma read_catalogue_inl (row_of_line : str → stop + row) lines e :
  read_catalogue row_of_line lines = inl e →
  ∃ line, line ∈ lines ∧ strip line ≠ [] ∧ row_of_line (strip line) = inl e.
Proof.
  induction lines as [|line lines IH]; [done|].
  cbn [read_catalogue]. destruct (strip line) as [|c rest] eqn:Hline.
  - intros H. destruct (IH H) as (l & Hin & Hl). exists l.
    split; [by right|done].
  - destruct (row_of_line (c :: rest)) as [e'|item] eqn:Hrow.
    + intros [= ->]. exists line. rewrite Hline. split_and!; [by left|done..].
    + destruct (read_catalogue row_of_line lines) as [e'|items]; [|done].
      intros [= ->]. destruct (IH eq_refl) as (l & Hin & Hl). exists l.
      split; [by right|done].
Qed.

(** *** The widths of the columns *)

Lemma fits_wider col_widths col_widths' values :
  Forall2 le col_widths col_widths' →
  fits col_widths values → fits col_widths' values.
Proof.
  intros Hle. revert values. induction Hle as [|w w' ws ws' Hw _ IH];
    intros values Hfits.
  - done.
  - inversion Hfits as [|? v ? vs Hv Hvs]; subst.
    constructor; [lia|by apply IH].
Qed.

Lemma widen_spec col_widths item :
  length col_widths = 6%nat →
  length (widen col_widths item) = 6%nat
  ∧ Forall2 le col_widths (widen col_widths item)
  ∧ fits (widen col_widths item) (cells item)
  ∧ fits (widen col_widths item) headers.
Proof.
  intros Hlen.
  destruct col_widths as [|w1 [|w2 [|w3 [|w4 [|w5 [|w6 [|]]]]]]]; try done.
  destruct item as [[[[[c1 c2] c3] c4] c5] c6].
  unfold fits, widen. cbn [cells headers zip zip_with fst snd].
  split_and!; [done|..]; repeat constructor; simpl; lia.
Qed.

Lemma foldl_widen_spec items col_widths :
  length col_widths = 6%nat →
  let col_widths' := foldl widen col_widths items in
  length col_widths' = 6%nat
  ∧ Forall2 le col_widths col_widths'
  ∧ Forall (λ item, fits col_widths' (cells item)) items
  ∧ (items ≠ [] → fits col_widths' headers).
Proof.
  revert col_widths. induction items as [|item items IH];
    intros col_widths Hlen; cbn [foldl].
  - split_and!; [done| |done..].
    clear Hlen. by induction col_widths; constructor.
  - destruct (widen_spec col_widths item Hlen) as (Hlen' & Hle & Hitem & Hhead).
    destruct (IH (widen col_widths item) Hlen') as (Hlen'' & Hle' & Hitems & _).
    split_and!; [done| | |].
    + clear -Hle Hle'. revert Hle'.
      generalize (foldl widen (widen col_widths item) items).
      induction Hle as [|w w' ws ws' Hw _ IH']; intros l Hl;
        inversion Hl; subst; constructor; [lia|by apply IH'].
    + constructor; [by eapply fits_wider|done].
    + intros _. by eapply fits_wider.
Qed.

Lemma length_ljust (width : nat) (s : str) :
  (length s ≤ width)%nat → length (ljust width s) = width.
Proof.
  intros Hs. unfold ljust. rewrite length_app, length_replicate. lia.
Qed.

Lemma length_str_join (sep : str) (l : list str) :
  l ≠ [] →
  (length (str_join sep l) + length sep
   = sum_list (length <$> l) + length l * length sep)%nat.
Proof.
  induction l as [|s l IH]; [done|]. intros _.
  destruct l as [|s' l].
  - simpl. lia.
  - specialize (IH ltac:(done)).
    change (str_join sep (s :: s' :: l))
      with (s ++ sep ++ str_join sep (s' :: l)).
    rewrite !length_app, !fmap_cons. rewrite !fmap_cons in IH.
    set (joined := str_join sep (s' :: l)) in *.
    cbn [sum_list sum_list_with length] in *. unfold id in *. lia.
Qed.

Lemma length_zip_with_ljust col_widths (values : list str) :
  fits col_widths values →
  length <$> zip_with ljust col_widths values = col_widths.
Proof.
  induction 1 as [|w v ws vs Hv _ IH]; [done|].
  cbn [zip_with fmap list_fmap]. rewrite length_ljust by lia. f_equal.
  exact IH.
Qed.

Lemma length_print_row col_widths (values : list str) :
  fits col_widths values →
  col_widths ≠ [] →
  length (print_row col_widths values)
  = (sum_list col_widths + length col_widths - 1)%nat.
Proof.
  intros Hfits Hne. unfold print_row.
  pose proof (length_zip_with_ljust _ _ Hfits) as Hlen.
  pose proof (length_str_join [space] (zip_with ljust col_widths values))
    as Hjoin.
  rewrite Hlen in Hjoin.
  assert (Hzip : length (zip_with ljust col_widths values)
                 = length col_widths).
  { by rewrite <-Hlen at 2; rewrite length_fmap. }
  rewrite Hzip in Hjoin. cbn [length] in Hjoin.
  destruct col_widths as [|w ws]; [done|].
  destruct (zip_with ljust (w :: ws) values) eqn:Hz; [done|].
  specialize (Hjoin ltac:(done)). lia.
Qed.

(** *** The order of the rows *)

Lemma insert_sorted_Permutation item items :
  insert_sorted item items ≡ₚ item :: items.
Proof.
  induction items as [|item' items IH]; [done|].
  cbn [insert_sorted]. destruct (row_ltb item item'); [done|].
  by rewrite IH, Permutation_swap.
Qed.

Lemma foldl_insert_sorted_Permutation items done_items :
  foldl (λ done item, insert_sorted item done) done_items items
  ≡ₚ done_items ++ items.
Proof.
  revert done_items. induction items as [|item items IH]; intros done_items.
  - by rewrite app_nil_r.
  - cbn [foldl]. rewrite IH, insert_sorted_Permutation.
    apply Permutation_middle.
Qed.

Lemma sorted_Permutation items : sorted items ≡ₚ items.
Proof. apply (foldl_insert_sorted_Permutation items []). Qed.

Lemma voice_not_before_vocoder item item' :
  head (cells item) = Some voice_str →
  head (cells item') = Some vocoder_str →
  row_ltb item item' = false.
Proof.
  destruct item as [[[[[c1 c2] c3] c4] c5] c6].
  destruct item' as [[[[[d1 d2] d3] d4] d5] d6].
  cbn [cells head]. by intros [= ->] [= ->].
Qed.

Lemma insert_sorted_after (item : row) (before after : list row) :
  Forall (λ item', row_ltb item item' = false) before →
  insert_sorted item (before ++ after) = before ++ insert_sorted item after.
Proof.
  induction 1 as [|item' before Hitem _ IH]; [done|].
  cbn [app insert_sorted]. by rewrite Hitem, IH.
Qed.

Lemma foldl_insert_sorted_after (voices before after : list row) :
  Forall (λ item, head (cells item) = Some vocoder_str) before →
  Forall (λ item, head (cells item) = Some voice_str) voices →
  foldl (λ done item, insert_sorted item done) (before ++ after) voices
  = before ++ foldl (λ done item, insert_sorted item done) after voices.
Proof.
  intros Hbefore Hvoices. revert after.
  induction Hvoices as [|item voices Hitem _ IH]; intros after; [done|].
  cbn [foldl]. rewrite insert_sorted_after; [apply IH|].
  eapply Forall_impl; [exact Hbefore|].
  intros item' Hitem'. by apply voice_not_before_vocoder.
Qed.

Lemma sorted_vocoders_voices (vocoders voices : list row) :
  Forall (λ item, head (cells item) = Some vocoder_str) vocoders →
  Forall (λ item, head (cells item) = Some voice_str) voices →
  sorted (vocoders ++ voices) = sorted vocoders ++ sorted voices.
Proof.
  intros Hvocoders Hvoices. unfold sorted. rewrite foldl_app.
  rewrite <-(app_nil_r (foldl _ [] vocoders)) at 1.
  apply foldl_insert_sorted_after; [|done].
  fold (sorted vocoders). by rewrite sorted_Permutation.
Qed.

Lemma get_col_widths_spec items col_widths :
  get_col_widths items = inr col_widths →
  items ≠ []
  ∧ length col_widths = 6%nat
  ∧ Forall (λ item, fits col_widths (cells item)) items
  ∧ fits col_widths headers.
Proof.
  unfold get_col_widths. destruct items as [|first items']; [done|].
  intros [= <-].
  assert (Hlen : length (replicate (length (cells first)) 0%nat) = 6%nat).
  { rewrite length_replicate.
    by destruct first as [[[[[c1 c2] c3] c4] c5] c6]. }
  destruct (foldl_widen_spec (first :: items') _ Hlen)
    as (Hlen' & _ & Hfits & Hhead).
  split_and!; [done|exact Hlen'|exact Hfits|by apply Hhead].
Qed.

Lemma print_row_head col_widths item (type : str) :
  length col_widths = 6%nat →
  head (cells item) = Some type →
  ∃ rest, print_row col_widths (cells item) = type ++ rest.
Proof.
  intros Hlen.
  destruct col_widths as [|w1 [|w2 [|w3 [|w4 [|w5 [|w6 [|]]]]]]]; try done.
  destruct item as [[[[[c1 c2] c3] c4] c5] c6].
  cbn [cells head]. intros [= ->]. unfold print_row.
  cbn [zip_with str_join]. unfold ljust at 1. rewrite <-(assoc_L (++)).
  by eexists.
Qed.

Lemma list_voices_vocoders_inr local_info vocoders_file voices_file lines :
  list_voices_vocoders local_info vocoders_file voices_file = inr lines →
  ∃ vocoders voices col_widths,
    read_catalogue (vocoder_row local_info) vocoders_file = inr vocoders
    ∧ read_catalogue (voice_row local_info) voices_file = inr voices
    ∧ get_col_widths (vocoders ++ voices) = inr col_widths
    ∧ lines = print_row col_widths headers
              :: (print_row col_widths ∘ cells <$> sorted vocoders)
              ++ (print_row col_widths ∘ cells <$> sorted voices).
Proof.
  unfold list_voices_vocoders.
  destruct (read_catalogue (vocoder_row local_info) vocoders_file)
    as [e|vocoders] eqn:Hvocoders; [done|].
  destruct (read_catalogue (voice_row local_info) voices_file)
    as [e|voices] eqn:Hvoices; [done|].
  destruct (get_col_widths (vocoders ++ voices)) as [e|col_widths] eqn:Hwidths;
    [done|].
  intros [= <-]. exists vocoders, voices, col_widths.
  split_and!; [done..|].
  apply read_catalogue_inr in Hvocoders as [_ Hvocoders].
  apply read_catalogue_inr in Hvoices as [_ Hvoices].
  rewrite sorted_vocoders_voices, fmap_app; [done| |].
  - eapply Forall_impl; [exact Hvocoders|].
    intros item [line Hline]. by eapply vocoder_row_type.
  - eapply Forall_impl; [exact Hvoices|].
    intros item [line Hline]. by eapply voice_row_type.
Qed.

Lemma voice_row_short local_info (line : str) :
  (length (split_whitespace line) < 2)%nat →
  voice_row local_info line = inl ValueError_not_enough_values_to_unpack.
Proof.
  unfold voice_row. rewrite <-(length_reverse (split_whitespace line)).
  destruct (reverse _) as [|download [|name aliases]]; simpl; [done..|lia].
Qed.

Lemma voice_row_long local_info (line : str) :
  (2 ≤ length (split_whitespace line))%nat →
  ∃ item, voice_row local_info line = inr item.
Proof.
  unfold voice_row. rewrite <-(length_reverse (split_whitespace line)).
  destruct (reverse _) as [|download [|name aliases]]; simpl; [lia..|].
  by eexists.
Qed.

Lemma read_catalogue_vocoders local_info (lines : list str) :
  ∃ items, read_catalogue (vocoder_row local_info) lines = inr items.
Proof.
  destruct (read_catalogue (vocoder_row local_info) lines) as [e|items]
    eqn:Hread; [|by eexists].
  apply read_catalogue_inl in Hread as (line & _ & Hline & Hrow).
  destruct (vocoder_row_strip local_info line Hline) as [item Hitem].
  congruence.
Qed.

Lemma read_catalogue_one_word local_info (lines : list str) :
  Exists (λ line, length (split_whitespace (strip line)) = 1%nat) lines →
  read_catalogue (voice_row local_info) lines
  = inl ValueError_not_enough_values_to_unpack.
Proof.
  induction lines as [|line lines IH]; [by intros ?%Exists_nil|].
  rewrite Exists_cons. intros Hex. cbn [read_catalogue].
  destruct (strip line) as [|c rest] eqn:Hline.
  - destruct Hex as [Hone|Hex]; [done|by apply IH].
  - destruct (decide (length (split_whitespace (c :: rest)) = 1%nat))
      as [Hone|Hone].
    + rewrite voice_row_short by lia. done.
    + destruct Hex as [?|Hex]; [done|].
      destruct (voice_row local_info (c :: rest)) as [e|item] eqn:Hrow.
      * assert (Hstrip : strip line ≠ []) by (by rewrite Hline).
        apply split_whitespace_strip in Hstrip. rewrite Hline in Hstrip.
        destruct (voice_row_long local_info (c :: rest)) as [item Hitem];
          [|congruence].
        destruct (split_whitespace (c :: rest)) as [|? [|? ?]]; simpl in *;
          [done|done|lia].
      * by rewrite IH.
Qed.

Lemma read_catalogue_voices local_info (lines : list str) :
  Forall (λ line, length (split_whitespace (strip line)) ≠ 1%nat) lines →
  ∃ items, read_catalogue (voice_row local_info) lines = inr items.
Proof.
  induction 1 as [|line lines Hline _ [items IH]]; [by eexists|].
  cbn [read_catalogue]. destruct (strip line) as [|c rest] eqn:Hstrip.
  - by exists items.
  - destruct (voice_row_long local_info (c :: rest)) as [item Hitem].
    + assert (Hne : strip line ≠ []) by (by rewrite Hstrip).
      apply split_whitespace_strip in Hne. rewrite Hstrip in Hne.
      destruct (split_whitespace (c :: rest)) as [|? [|? ?]]; simpl in *;
        [done|done|lia].
    + rewrite Hitem, IH. by eexists.
Qed.

(** *** The order of rows *)

Section Lex.
Context {A : Type} `{EqDecision A} (ltb : A → A → bool).
Hypothesis ltb_irrefl : ∀ x, ltb x x = false.
Hypothesis ltb_trans : ∀ x y z, ltb x y = true → ltb y z = true →
                                ltb x z = true.

Lemma lex_ltb_irrefl (l : list A) : lex_ltb ltb l l = false.
Proof using ltb_irrefl.
  induction l as [|x l IH]; [done|].
  cbn [lex_ltb]. by rewrite bool_decide_true.
Qed.

Lemma lex_ltb_trans (l1 l2 l3 : list A) :
  lex_ltb ltb l1 l2 = true → lex_ltb ltb l2 l3 = true →
  lex_ltb ltb l1 l3 = true.
Proof using ltb_irrefl ltb_trans.
  revert l2 l3. induction l1 as [|x l1 IH]; intros [|y l2] [|z l3];
    cbn [lex_ltb]; try done.
  case_bool_decide as Hxy; case_bool_decide as Hyz;
    case_bool_decide as Hxz; subst; try done; intros H1 H2.
  - by eapply IH.
  - pose proof (ltb_trans _ _ _ H1 H2) as H. by rewrite ltb_irrefl in H.
  - by eapply ltb_trans.
Qed.
End Lex.

Lemma str_ltb_irrefl (s : str) : str_ltb s s = false.
Proof. apply lex_ltb_irrefl, N.ltb_irrefl. Qed.

Lemma str_ltb_trans (s1 s2 s3 : str) :
  str_ltb s1 s2 = true → str_ltb s2 s3 = true → str_ltb s1 s3 = true.
Proof.
  apply lex_ltb_trans; [apply N.ltb_irrefl|].
  intros x y z. rewrite !N.ltb_lt. lia.
Qed.

Lemma row_ltb_irrefl item : row_ltb item item = false.
Proof. apply lex_ltb_irrefl, str_ltb_irrefl. Qed.

Lemma row_ltb_trans item1 item2 item3 :
  row_ltb item1 item2 = true → row_ltb item2 item3 = true →
  row_ltb item1 item3 = true.
Proof. apply lex_ltb_trans; [apply str_ltb_irrefl|apply str_ltb_trans]. Qed.

Lemma insert_sorted_StronglySorted item items :
  StronglySorted (λ item later, row_ltb later item = false) items →
  StronglySorted (λ item later, row_ltb later item = false)
    (insert_sorted item items).
Proof.
  induction 1 as [|item' items Hsorted IH Hitems]; cbn [insert_sorted].
  - by repeat constructor.
  - destruct (row_ltb item item') eqn:Hlt.
    + constructor; [by constructor|]. constructor.
      * destruct (row_ltb item' item) eqn:Hgt; [|done].
        pose proof (row_ltb_trans _ _ _ Hlt Hgt) as H.
        by rewrite row_ltb_irrefl in H.
      * eapply Forall_impl; [exact Hitems|]. intros later Hlater. simpl in *.
        destruct (row_ltb later item) eqn:Hgt; [|done].
        pose proof (row_ltb_trans _ _ _ Hgt Hlt) as H. congruence.
    + constructor; [done|].
      rewrite insert_sorted_Permutation. by constructor.
Qed.

Lemma sorted_StronglySorted items :
  StronglySorted (λ item later, row_ltb later item = false) (sorted items).
Proof.
  unfold sorted.
  assert (H : ∀ done_items,
            StronglySorted (λ item later, row_ltb later item = false)
              done_items →
            StronglySorted (λ item later, row_ltb later item = false)
              (foldl (λ done item, insert_sorted item done) done_items
                 items)).
  { induction items as [|item items IH]; intros done_items Hdone; [done|].
    cbn [foldl]. by apply IH, insert_sorted_StronglySorted. }
  apply H. constructor.
Qed.

(** The listing is a table, or an exception. A line of [VOICES] with a
    single word raises [ValueError]; without such a line, two files
    without any entry raise [IndexError], and otherwise the table is
    printed, a line of [VOCODERS] never raising. The table has one line
    for the headers and one for each line of the two files that is not
    blank, all of the same length. *)
Theorem listing_is_an_aligned_table (local_info : gmap (str * str) str)
    (vocoders_file voices_file : list str) :
  let entries := filter (λ line, strip line ≠ []) in
  let one_word line := length (split_whitespace (strip line)) = 1%nat in
  let listing := list_voices_vocoders local_info vocoders_file voices_file in
  (Exists one_word voices_file →
   listing = inl ValueError_not_enough_values_to_unpack)
  ∧ (Forall (λ line, ¬ one_word line) voices_file →
     entries vocoders_file = [] → entries voices_file = [] →
     listing = inl IndexError)
  ∧ (Forall (λ line, ¬ one_word line) voices_file →
     entries (vocoders_file ++ voices_file) ≠ [] →
     ∃ lines, listing = inr lines)
  ∧ (∀ lines, listing = inr lines →
       length lines
       = S (length (entries vocoders_file) + length (entries voices_file))
       ∧ ∃ width, Forall (λ line, length line = width) lines).
Proof.
  intros entries one_word listing. unfold listing. split_and!.
  - intros Hone. unfold list_voices_vocoders.
    destruct (read_catalogue_vocoders local_info vocoders_file)
      as [vocoders ->].
    by rewrite read_catalogue_one_word.
  - intros Hwords Hvocoders Hvoices. unfold list_voices_vocoders.
    destruct (read_catalogue_vocoders local_info vocoders_file)
      as [vocoders Hread1].
    destruct (read_catalogue_voices local_info voices_file Hwords)
      as [voices Hread2].
    rewrite Hread1, Hread2.
    apply read_catalogue_inr in Hread1 as [Hlen1 _].
    apply read_catalogue_inr in Hread2 as [Hlen2 _].
    fold (entries vocoders_file) in Hlen1. fold (entries voices_file) in Hlen2.
    rewrite Hvocoders in Hlen1. rewrite Hvoices in Hlen2.
    apply nil_length_inv in Hlen1 as ->. by apply nil_length_inv in Hlen2 as ->.
  - intros Hwords Hentries. unfold list_voices_vocoders.
    destruct (read_catalogue_vocoders local_info vocoders_file)
      as [vocoders Hread1].
    destruct (read_catalogue_voices local_info voices_file Hwords)
      as [voices Hread2].
    rewrite Hread1, Hread2.
    apply read_catalogue_inr in Hread1 as [Hlen1 _].
    apply read_catalogue_inr in Hread2 as [Hlen2 _].
    destruct (vocoders ++ voices) as [|first items] eqn:Hitems.
    + apply app_eq_nil in Hitems as [-> ->]. destruct Hentries.
      unfold entries. rewrite filter_app. apply nil_length_inv.
      rewrite length_app. simpl in *. lia.
    + cbn zeta. unfold get_col_widths. by eexists.
  - intros lines Hlist.
    apply list_voices_vocoders_inr in Hlist
      as (vocoders & voices & col_widths & Hvocoders & Hvoices & Hwidths & ->).
    apply get_col_widths_spec in Hwidths as (Hne & Hlen & Hfits & Hhead).
    apply read_catalogue_inr in Hvocoders as [Hvocoders _].
    apply read_catalogue_inr in Hvoices as [Hvoices _].
    split.
    + rewrite length_cons, length_app, !length_fmap.
      by rewrite !sorted_Permutation, Hvocoders, Hvoices.
    + exists (sum_list col_widths + length col_widths - 1)%nat.
      assert (Hwide : col_widths ≠ []) by (by intros ->).
      apply Forall_app in Hfits as [Hfits1 Hfits2].
      constructor; [by apply length_print_row|].
      apply Forall_app. split; apply Forall_fmap; rewrite sorted_Permutation.
      * eapply Forall_impl; [exact Hfits1|].
        intros item Hitem. by apply length_print_row.
      * eapply Forall_impl; [exact Hfits2|].
        intros item Hitem. by apply length_print_row.
Qed.

(** The rows are printed in sorted order: the lines after the headers
    are those of a rearrangement of the rows read from the two files in
    which no row is smaller than a row before it, rows being compared as
    tuples of strings. As the type is the first value of a row, the
    vocoders, sorted, come first and the voices, sorted, after them. *)
Theorem vocoders_are_listed_before_voices (local_info : gmap (str * str) str)
    (vocoders_file voices_file lines : list str) :
  list_voices_vocoders local_info vocoders_file voices_file = inr lines →
  ∃ vocoders voices col_widths sorted_vocoders sorted_voices,
    read_catalogue (vocoder_row local_info) vocoders_file = inr vocoders
    ∧ read_catalogue (voice_row local_info) voices_file = inr voices
    ∧ lines = print_row col_widths headers
              :: (print_row col_widths ∘ cells
                  <$> sorted_vocoders ++ sorted_voices)
    ∧ sorted_vocoders ≡ₚ vocoders
    ∧ sorted_voices ≡ₚ voices
    ∧ StronglySorted (λ item later, row_ltb later item = false)
        (sorted_vocoders ++ sorted_voices)
    ∧ Forall (λ item, startswith (print_row col_widths (cells item))
                        vocoder_str = true) sorted_vocoders
    ∧ Forall (λ item, startswith (print_row col_widths (cells item))
                        voice_str = true) sorted_voices.
Proof.
  intros Hlist.
  apply list_voices_vocoders_inr in Hlist
    as (vocoders & voices & col_widths & Hvocoders & Hvoices & Hwidths & ->).
  exists vocoders, voices, col_widths, (sorted vocoders), (sorted voices).
  pose proof (get_col_widths_spec _ _ Hwidths) as (_ & Hlen & _ & _).
  pose proof (read_catalogue_inr _ _ _ Hvocoders) as [_ Hvocoder_rows].
  pose proof (read_catalogue_inr _ _ _ Hvoices) as [_ Hvoice_rows].
  assert (Hsorted : sorted (vocoders ++ voices)
                    = sorted vocoders ++ sorted voices).
  { apply sorted_vocoders_voices.
    - eapply Forall_impl; [exact Hvocoder_rows|].
      intros item [line Hline]. by eapply vocoder_row_type.
    - eapply Forall_impl; [exact Hvoice_rows|].
      intros item [line Hline]. by eapply voice_row_type. }
  split_and!; [done|done|by rewrite fmap_app|apply sorted_Permutation
              |apply sorted_Permutation| | |].
  - rewrite <-Hsorted. apply sorted_StronglySorted.
  - rewrite sorted_Permutation.
    eapply Forall_impl; [exact Hvocoder_rows|].
    intros item [line Hline]. apply startswith_spec.
    apply (print_row_head col_widths item vocoder_str Hlen).
    by eapply vocoder_row_type.
  - rewrite sorted_Permutation.
    eapply Forall_impl; [exact Hvoice_rows|].
    intros item [line Hline]. apply startswith_spec.
    apply (print_row_head col_widths item voice_str Hlen).
    by eapply voice_row_type.
Qed.
End MainListing.

(** ** The properties above on the small inputs *)

Section RunChecks.
Import gruut_ipa Demo MainDemo.

Lemma missing_major_break_fails_every_utterance_witness :
  let text := ascii_str "hello." in
  hello_sentence ∈ tokenize breakless_lang text false (negb false)
  ∧ first_pron_of is_stress breakless_lang false hello_sentence ≠ []
  ∧ vocabulary breakless_lang empty_world !! BREAK_MAJOR = None
  ∧ ∃ q, vocabulary breakless_lang empty_world !! q = None
         ∧ (text_to_speech is_stress BREAK_MAJOR demo_clock text
              breakless_lang demo_tts demo_vocoder default_sample_rate
              false false false empty_world).1
           = inl (KeyError q).
Proof.
  intros text.
  assert (Hin : hello_sentence
                ∈ tokenize breakless_lang text false (negb false)).
  { apply list_elem_of_In. vm_compute. by left. }
  assert (Hkept : first_pron_of is_stress breakless_lang false hello_sentence
                  ≠ []).
  { intros H. vm_compute in H. discriminate H. }
  assert (Hnone : vocabulary breakless_lang empty_world !! BREAK_MAJOR = None)
    by (by vm_compute).
  split_and!; [exact Hin|exact Hkept|exact Hnone|].
  exact (missing_major_break_fails_every_utterance is_stress BREAK_MAJOR
           demo_clock text breakless_lang demo_tts demo_vocoder
           default_sample_rate false false false empty_world hello_sentence
           Hin Hkept Hnone).
Defined.
End RunChecks.

Section MainChecks.
Import Main MainDemo.

Lemma raw_stream_is_all_that_leaves_witness :
  stream_raw stream_args = true
  ∧ demo_speak true stream_args demo_texts
    = let '(read, e) := read_lines (apply_csv stream_args) demo_texts in
      (result_of e, State [] 0 (Stdout_raw <$> audios_of demo_speech read)).
Proof.
  split; [reflexivity|].
  exact (raw_stream_is_all_that_leaves demo_speech demo_time_str
           demo_play_command true stream_args demo_texts eq_refl).
Defined.

Lemma piped_audio_is_written_once_at_the_end_witness :
  stream_raw piped_args = false
  ∧ interactive piped_args = false
  ∧ output_dir piped_args = None
  ∧ demo_speak false piped_args demo_texts
    = let '(read, e) := read_lines (apply_csv piped_args) demo_texts in
      (result_of e,
       State (audios_of demo_speech read) 0
         match e, audios_of demo_speech read with
         | None, _ :: _ =>
             [Stdout_wav (sample_rate piped_args)
                (concat (audios_of demo_speech read))]
         | _, _ => []
         end).
Proof.
  split_and!; [reflexivity..|].
  exact (piped_audio_is_written_once_at_the_end demo_speech demo_time_str
           demo_play_command piped_args demo_texts eq_refl eq_refl eq_refl).
Defined.

Lemma terminal_audio_is_played_not_written_witness :
  stream_raw piped_args = false
  ∧ output_dir piped_args = None
  ∧ true || interactive piped_args = true
  ∧ demo_speak true piped_args demo_texts
    = let '(read, e) := read_lines (apply_csv piped_args) demo_texts in
      (result_of e,
       State [] 0
         (Play_wav demo_play_command (sample_rate piped_args)
          <$> audios_of demo_speech read)).
Proof.
  split_and!; [reflexivity..|].
  exact (terminal_audio_is_played_not_written demo_speech demo_time_str
           demo_play_command true piped_args demo_texts eq_refl eq_refl
           eq_refl).
Defined.

Lemma line_without_delimiter_loses_all_audio_witness :
  let line := Demo.ascii_str "no delimiter here" in
  stream_raw csv_args = false
  ∧ interactive csv_args = false
  ∧ output_dir csv_args = None
  ∧ (csv csv_args = true ∨ output_naming csv_args = ID)
  ∧ id_delimiter csv_args ≠ []
  ∧ line ∈ demo_csv_texts
  ∧ strip line ≠ []
  ∧ (∀ line_id text,
       strip line ≠ line_id ++ id_delimiter csv_args ++ text)
  ∧ (demo_speak false csv_args demo_csv_texts).1
    = inl ValueError_not_enough_values
  ∧ outputs (demo_speak false csv_args demo_csv_texts).2 = [].
Proof.
  intros line.
  assert (Hid : csv csv_args = true ∨ output_naming csv_args = ID)
    by (left; reflexivity).
  assert (Hdelim : id_delimiter csv_args ≠ []).
  { intros H. vm_compute in H. discriminate H. }
  assert (Hin : line ∈ demo_csv_texts).
  { apply list_elem_of_In. vm_compute. right. by left. }
  assert (Hline : strip line ≠ []).
  { intros H. vm_compute in H. discriminate H. }
  assert (Hsplit : ∀ line_id text,
            strip line ≠ line_id ++ id_delimiter csv_args ++ text).
  { apply partition_first_None. by vm_compute. }
  refine (conj eq_refl (conj eq_refl (conj eq_refl (conj Hid (conj Hdelim
            (conj Hin (conj Hline (conj Hsplit _)))))))).
  exact (line_without_delimiter_loses_all_audio demo_speech demo_time_str
           demo_play_command csv_args demo_csv_texts line eq_refl eq_refl
           eq_refl Hid Hdelim Hin Hline Hsplit).
Defined.

Lemma id_naming_numbers_the_sentences_of_a_line_witness :
  let dir := Demo.ascii_str "out" in
  let line_id := Demo.ascii_str "a" in
  let items := demo_speech (Demo.ascii_str "hi. yo. ok") in
  let s := @initial str in
  stream_raw id_dir_args = false
  ∧ output_dir id_dir_args = Some dir
  ∧ output_naming id_dir_args = ID
  ∧ line_id ≠ []
  ∧ (∃ text_id,
       for_each (audio_body demo_time_str demo_play_command id_dir_args
                   line_id)
         [] (enumerate items) s
       = (inr text_id,
          State (all_audios s) (time_reads s)
            (outputs s
             ++ concat (imap (λ text_idx item,
                                id_outputs demo_play_command id_dir_args dir
                                  line_id text_idx item.2)
                          items))))
  ∧ NoDup (id_file_name line_id <$> seq 0 (length items)).
Proof.
  intros dir line_id items s.
  assert (Hid : line_id ≠ []).
  { intros H. vm_compute in H. discriminate H. }
  refine (conj eq_refl (conj eq_refl (conj eq_refl (conj Hid _)))).
  exact (id_naming_numbers_the_sentences_of_a_line demo_time_str
           demo_play_command id_dir_args dir line_id items s
           eq_refl eq_refl eq_refl Hid).
Defined.

Lemma sentence_without_file_name_stops_the_run_witness :
  let dir := Demo.ascii_str "out" in
  let text := Demo.ascii_str "?!" in
  let s := @initial str in
  stream_raw text_dir_args = false
  ∧ output_dir text_dir_args = Some dir
  ∧ (output_naming text_dir_args = TEXT
     ∧ Forall (λ c, c ∈ punctuation ∧ c ≠ underscore) text)
  ∧ audio_body demo_time_str demo_play_command text_dir_args [] []
      (0%nat, (text, [1; 2; 3])) s
    = (inl (AssertionError text),
       State (all_audios s) (time_reads s)
         (outputs s
          ++ if interactive text_dir_args
             then [Play_wav demo_play_command (sample_rate text_dir_args)
                     [1; 2; 3]]
             else [])).
Proof.
  intros dir text s.
  assert (Hpunct : Forall (λ c, c ∈ punctuation ∧ c ≠ underscore) text).
  { apply (bool_decide_unpack _). by vm_compute. }
  refine (conj eq_refl (conj eq_refl (conj (conj eq_refl Hpunct) _))).
  exact (sentence_without_file_name_stops_the_run demo_time_str
           demo_play_command text_dir_args dir [] [] 0%nat text [1; 2; 3]
           s eq_refl eq_refl (or_introl (conj eq_refl Hpunct))).
Defined.

Lemma vocoders_are_listed_before_voices_witness :
  list_voices_vocoders demo_local_info demo_vocoders_file demo_voices_file
  = inr demo_listing
  ∧ ∃ vocoders voices col_widths sorted_vocoders sorted_voices,
      read_catalogue (vocoder_row demo_local_info) demo_vocoders_file
      = inr vocoders
      ∧ read_catalogue (voice_row demo_local_info) demo_voices_file
        = inr voices
      ∧ demo_listing
        = print_row col_widths headers
          :: (print_row col_widths ∘ cells
              <$> sorted_vocoders ++ sorted_voices)
      ∧ sorted_vocoders ≡ₚ vocoders
      ∧ sorted_voices ≡ₚ voices
      ∧ StronglySorted (λ item later, row_ltb later item = false)
          (sorted_vocoders ++ sorted_voices)
      ∧ Forall (λ item, startswith (print_row col_widths (cells item))
                          vocoder_str = true) sorted_vocoders
      ∧ Forall (λ item, startswith (print_row col_widths (cells item))
                          voice_str = true) sorted_voices.
Proof.
  assert (Hlist : list_voices_vocoders demo_local_info demo_vocoders_file
                    demo_voices_file
                  = inr demo_listing) by (by vm_compute).
  split; [exact Hlist|].
  exact (vocoders_are_listed_before_voices demo_local_info demo_vocoders_file
           demo_voices_file demo_listing Hlist).
Defined.
End MainChecks.
